(** * to-ico: the ICO container encoder of [index.js]

    A shallow embedding of the encoder (header, directory entries, bitmap
    info headers, pixel transposition, AND-mask packing, assembly and the
    optional resize preprocessing) together with the properties of its
    specification.

    Conventions of the embedding:
    - a JavaScript number is a [Z] (every number the encoder handles is an
      integer far below 2^53); the 32-bit operators [>>], [<<] and [|] are
      written out with their wrap-around ([ToInt32]);
    - a Node [Buffer] is a [list byte]; reads and writes check their offset
      and value ranges and throw as Node does;
    - a function that can throw, reject or loop returns an [outcome];
      [for] loops carry fuel that is enough for every run that ends. *)

From Stdlib Require Import ZArith Lia List.
From Stdlib Require Import Init.Byte Strings.Byte.
From stdpp Require Import base option list gmap strings.

Local Open Scope Z_scope.

(** ** Outcomes: a value, a thrown error (or rejected promise), or no end *)

Inductive error : Type :=
  | ERR_OUT_OF_RANGE            (* RangeError of a Buffer read or write *)
  | ERR_INVALID_ARG             (* bad argument of an allocation or a call *)
  | ERR_TYPE                    (* TypeError: property of undefined, not a function *)
  | ERR_EXTERNAL (code : Z).    (* failure of an external collaborator *)

Inductive outcome (A : Type) : Type :=
  | Ok (a : A)
  | Throw (e : error)
  | Diverge.

Arguments Ok {A} a.
Arguments Throw {A} e.
Arguments Diverge {A}.

#[export] Instance outcome_ret : MRet outcome := λ A a, Ok a.
#[export] Instance outcome_bind : MBind outcome := λ A B f m,
  match m with
  | Ok a => f a
  | Throw e => Throw e
  | Diverge => Diverge
  end.

(** [for (init; test; update) body]: the state holds the loop variable, the
    body ends with the update. *)
Fixpoint for_loop {St : Type} (fuel : nat) (test : St → bool)
    (body : St → outcome St) (s : St) : outcome St :=
  if test s then
    match fuel with
    | O => Diverge
    | S fuel' => s' ← body s; for_loop fuel' test body s'
    end
  else Ok s.

(** [for (const x of arr) body] *)
Fixpoint for_of {St A : Type} (arr : list A) (body : St → A → outcome St)
    (s : St) : outcome St :=
  match arr with
  | [] => Ok s
  | x :: rest => s' ← body s x; for_of rest body s'
  end.

(** [Promise.all]: every promise fulfilled gives the list of values, in
    order; otherwise the result is a rejection. *)
Fixpoint Promise_all {A : Type} (ps : list (outcome A)) : outcome (list A) :=
  match ps with
  | [] => Ok []
  | p :: rest => a ← p; l ← Promise_all rest; mret (a :: l)
  end.

(** ** Buffers *)

Abbreviation buffer := (list byte).

Definition Z_of_byte (b : byte) : Z := Z.of_N (Byte.to_N b).

Definition byte_of_Z (z : Z) : byte :=
  default x00 (Byte.of_N (Z.to_N (z mod 256))).

Definition in_bounds (buf : buffer) (offset size : Z) : bool :=
  (0 <=? offset) && (offset + size <=? Z.of_nat (length buf)).

(** [buffer-alloc]: a zero-filled buffer; a negative size is refused. *)
Definition bufferAlloc (size : Z) : outcome buffer :=
  if size <? 0 then Throw ERR_INVALID_ARG
  else Ok (replicate (Z.to_nat size) x00).

Definition readUInt8 (buf : buffer) (offset : Z) : outcome Z :=
  if in_bounds buf offset 1 then
    match buf !! Z.to_nat offset with
    | Some b => Ok (Z_of_byte b)
    | None => Throw ERR_OUT_OF_RANGE
    end
  else Throw ERR_OUT_OF_RANGE.

(** The [size] low bytes of [value], least significant first
    (two's complement for a negative value). *)
Fixpoint le_bytes (size : nat) (value : Z) : list byte :=
  match size with
  | O => []
  | S n => byte_of_Z (value mod 256) :: le_bytes n (value / 256)
  end.

Fixpoint write_bytes (buf : buffer) (pos : nat) (bs : list byte) : buffer :=
  match bs with
  | [] => buf
  | b :: rest => write_bytes (<[pos := b]> buf) (S pos) rest
  end.

(** The common part of Node's integer writers: the value must lie in
    [min, max], the [size] bytes must fit in the buffer. *)
Definition write_int (size : nat) (min max : Z) (buf : buffer)
    (value offset : Z) : outcome buffer :=
  if (min <=? value) && (value <=? max) then
    if in_bounds buf offset (Z.of_nat size) then
      Ok (write_bytes buf (Z.to_nat offset) (le_bytes size value))
    else Throw ERR_OUT_OF_RANGE
  else Throw ERR_OUT_OF_RANGE.

Definition writeUInt8 := write_int 1 0 255.
Definition writeUInt16LE := write_int 2 0 65535.
Definition writeUInt32LE := write_int 4 0 4294967295.
Definition writeInt32LE := write_int 4 (-2147483648) 2147483647.

(** [Buffer.concat(list, totalLength)]: the buffers one after the other,
    cut or zero-filled to [totalLength]. *)
Definition Buffer_concat (arr : list buffer) (totalLength : Z) : outcome buffer :=
  if totalLength <? 0 then Throw ERR_OUT_OF_RANGE
  else
    let n := Z.to_nat totalLength in
    Ok (take n (concat arr ++ replicate n x00)).

(** ** 32-bit operators of JavaScript *)

Definition ToInt32 (z : Z) : Z := (z + 2147483648) mod 4294967296 - 2147483648.

(** [a >> n] *)
Definition js_sar (a n : Z) : Z := Z.shiftr (ToInt32 a) (n mod 32).
(** [a << n] *)
Definition js_shl (a n : Z) : Z := ToInt32 (Z.shiftl (ToInt32 a) (n mod 32)).
(** [a | b] *)
Definition js_or (a b : Z) : Z := Z.lor (ToInt32 a) (ToInt32 b).

(** ** The encoder *)

Record image : Type := Image {
  width : Z;
  height : Z;
  bpp : Z;
  data : buffer
}.

Module constants.
Definition bitmapSize : Z := 40.
Definition colorMode : Z := 0.
Definition directorySize : Z := 16.
Definition headerSize : Z := 6.
End constants.

Definition createHeader (n : Z) : outcome buffer :=
  buf ← bufferAlloc constants.headerSize;
  buf ← writeUInt16LE buf 0 0;
  buf ← writeUInt16LE buf 1 2;
  buf ← writeUInt16LE buf n 4;
  mret buf.

Definition getMaskScanWidth (width : Z) : Z := js_shl (js_sar (width + 31) 5) 2.

Definition createDirectory (x : image) (offset : Z) : outcome (buffer * Z) :=
  buf ← bufferAlloc constants.directorySize;
  let mask := if bpp x =? 4
              then getMaskScanWidth (width x) * height x else 0 in
  let size := Z.of_nat (length (data x)) + constants.bitmapSize + mask in
  let width := if width x =? 256 then 0 else width x in
  let height := if height x =? 256 then 0 else height x in
  let bpp := bpp x * 8 in
  buf ← writeUInt8 buf width 0;
  buf ← writeUInt8 buf height 1;
  buf ← writeUInt8 buf 0 2;
  buf ← writeUInt8 buf 0 3;
  buf ← writeUInt16LE buf 1 4;
  buf ← writeUInt16LE buf bpp 6;
  buf ← writeUInt32LE buf size 8;
  buf ← writeUInt32LE buf offset 12;
  mret (buf, size).

Definition createBitmap (x : image) (compression : Z) : outcome buffer :=
  buf ← bufferAlloc constants.bitmapSize;
  buf ← writeUInt32LE buf constants.bitmapSize 0;
  buf ← writeInt32LE buf (width x) 4;
  buf ← writeInt32LE buf (height x * 2) 8;
  buf ← writeUInt16LE buf 1 12;
  buf ← writeUInt16LE buf (bpp x * 8) 14;
  buf ← writeUInt32LE buf compression 16;
  buf ← writeUInt32LE buf (Z.of_nat (length (data x))) 20;
  buf ← writeInt32LE buf 0 24;
  buf ← writeInt32LE buf 0 28;
  buf ← writeUInt32LE buf 0 32;
  buf ← writeUInt32LE buf 0 36;
  mret buf.

(** One pixel of [createDib]: four reads at [row + col], four writes at
    [(end - row) + col]; the fourth byte is read and written whatever
    [bpp] is. *)
Definition createDib_pixel (data : buffer) (end_ row : Z) (buf : buffer)
    (col : Z) : outcome buffer :=
  let pos := row + col in
  r ← readUInt8 data pos;
  g ← readUInt8 data (pos + 1);
  b ← readUInt8 data (pos + 2);
  a ← readUInt8 data (pos + 3);
  let pos := (end_ - row) + col in
  buf ← writeUInt8 buf b pos;
  buf ← writeUInt8 buf g (pos + 1);
  buf ← writeUInt8 buf r (pos + 2);
  buf ← writeUInt8 buf a (pos + 3);
  mret buf.

Definition createDib (data : buffer) (width height bpp : Z) : outcome buffer :=
  let cols := width * bpp in
  let rows := height * cols in
  let end_ := rows - cols in
  buf ← bufferAlloc (Z.of_nat (length data));
  '(buf, _) ← for_loop (S (Z.to_nat rows))
    (λ '(_, row), row <? rows)
    (λ '(buf, row),
      '(buf, _) ← for_loop (S (Z.to_nat cols))
        (λ '(_, col), col <? cols)
        (λ '(buf, col),
          buf ← createDib_pixel data end_ row buf col;
          mret (buf, col + bpp))
        (buf, 0);
      mret (buf, row + cols))
    (buf, 0);
  mret buf.

(** [data.readUInt8(srcPos) >= threshold ? 0 : bit] *)
Definition mask_bit (data : buffer) (srcPos threshold bit : Z) : outcome Z :=
  a ← readUInt8 data srcPos;
  mret (if a >=? threshold then 0 else bit).

(** The byte of eight whole pixels, alpha bytes at [srcPos], [srcPos + 4], ... *)
Definition createMask_group (data : buffer) (srcPos threshold : Z) : outcome Z :=
  m7 ← mask_bit data srcPos threshold 128;
  m6 ← mask_bit data (srcPos + 4) threshold 64;
  m5 ← mask_bit data (srcPos + 8) threshold 32;
  m4 ← mask_bit data (srcPos + 12) threshold 16;
  m3 ← mask_bit data (srcPos + 16) threshold 8;
  m2 ← mask_bit data (srcPos + 20) threshold 4;
  m1 ← mask_bit data (srcPos + 24) threshold 2;
  m0 ← mask_bit data (srcPos + 28) threshold 1;
  mret (js_or (js_or (js_or (js_or (js_or (js_or (js_or m7 m6) m5) m4) m3) m2) m1) m0).

(** State of the loops of [createMask]. *)
Record mask_state : Type := MaskState {
  ms_buf : buffer;
  ms_srcPos : Z;
  ms_dstPos : Z
}.

(** One row [y] of [createMask]: the whole groups of eight pixels, then
    the [width % 8] remaining pixels in one more byte. *)
Definition createMask_row (data : buffer) (width scanWidth threshold : Z)
    (buf : buffer) (srcPos y : Z) : outcome (buffer * Z) :=
  let dstPos := y * scanWidth in
  '(st, _) ← for_loop (S (Z.to_nat width))
    (λ '(_, x), x <? width - 7)
    (λ '(st, x),
      mask ← createMask_group data (ms_srcPos st) threshold;
      buf ← writeUInt8 (ms_buf st) mask (ms_dstPos st);
      mret (MaskState buf (ms_srcPos st + 32) (ms_dstPos st + 1), x + 8))
    (MaskState buf srcPos dstPos, 0);
  if negb (Z.rem width 8 =? 0) then
    '(mask, srcPos, _) ← for_loop 8%nat
      (λ '(_, _, x), x <? Z.rem width 8)
      (λ '(mask, srcPos, x),
        m ← mask_bit data srcPos threshold (2 ^ (7 - x));
        mret (js_or mask m, srcPos + 4, x + 1))
      (0, ms_srcPos st, 0);
    buf ← writeUInt8 (ms_buf st) mask (ms_dstPos st);
    mret (buf, srcPos)
  else mret (ms_buf st, ms_srcPos st).

Definition createMask (data : buffer) (width height threshold : Z) : outcome buffer :=
  let scanWidth := getMaskScanWidth width in
  buf ← bufferAlloc (scanWidth * height);
  '(buf, _, _) ← for_loop (S (Z.to_nat height))
    (λ '(_, _, y), y <? height)
    (λ '(buf, srcPos, y),
      '(buf, srcPos) ← createMask_row data width scanWidth threshold buf srcPos y;
      mret (buf, srcPos, y + 1))
    (buf, 3, 0);
  mret buf.

(** The body of the first loop of [generateIco]: one directory entry. *)
Definition push_directory (st : list buffer * Z * Z) (x : image)
    : outcome (list buffer * Z * Z) :=
  let '(arr, len, offset) := st in
  dir ← createDirectory x offset;
  mret (arr ++ [dir.1], len + Z.of_nat (length dir.1), offset + dir.2).

(** The body of the second loop of [generateIco]: one image block. *)
Definition push_block (st : list buffer * Z) (x : image)
    : outcome (list buffer * Z) :=
  let '(arr, len) := st in
  header ← createBitmap x constants.colorMode;
  dib ← createDib (data x) (width x) (height x) (bpp x);
  mask ← (if bpp x =? 4 then createMask dib (width x) (height x) 1
          else bufferAlloc 0);
  mret (arr ++ [header; dib; mask],
        len + Z.of_nat (length header) + Z.of_nat (length dib)
            + Z.of_nat (length mask)).

(** The body of [generateIco] once every source is decoded: the function
    given to [then], whose argument [data] is here [decoded]. *)
Definition generateIco_decoded (decoded : list image) : outcome buffer :=
  header ← createHeader (Z.of_nat (length decoded));
  let arr := [header] in
  let len := Z.of_nat (length header) in
  let offset := constants.headerSize
                + constants.directorySize * Z.of_nat (length decoded) in
  '(arr, len, offset) ← for_of decoded push_directory (arr, len, offset);
  '(arr, len) ← for_of decoded push_block (arr, len);
  Buffer_concat arr len.

(** ** The exported function and the resize preprocessing *)

(** What an options object may hold. *)
Inductive jsval : Type :=
  | JUndefined
  | JBool (b : bool)
  | JNum (z : Z)
  | JArr (l : list Z).

Definition truthy (v : option jsval) : bool :=
  match v with
  | Some (JBool b) => b
  | Some (JNum z) => negb (z =? 0)
  | Some (JArr _) => true
  | Some JUndefined | None => false
  end.

(** [Object.assign({resize: false, sizes: [...]}, opts)]: the properties of
    [opts] win over the defaults; an absent [opts] leaves the defaults. *)
Definition default_opts : gmap string jsval :=
  {[ "resize" := JBool false;
     "sizes" := JArr [16; 24; 32; 48; 64; 128; 256] ]}.

Definition assign_opts (opts : option (gmap string jsval)) : gmap string jsval :=
  match opts with
  | Some o => o ∪ default_opts
  | None => default_opts
  end.

(** The argument of the exported function: nothing, one source or an
    array of sources; [arrify] makes it an array. *)
Inductive input (source : Type) : Type :=
  | InputNone
  | InputOne (x : source)
  | InputArray (xs : list source).

Arguments InputNone {source}.
Arguments InputOne {source} x.
Arguments InputArray {source} xs.

Definition arrify {source : Type} (i : input source) : list source :=
  match i with
  | InputNone => []
  | InputOne x => [x]
  | InputArray xs => xs
  end.

(** A source with its measured size, as built in [resizeImages]. *)
Record sized (source : Type) : Type := Sized {
  sized_data : source;
  sized_width : Z;
  sized_height : Z
}.

Arguments Sized {source} _ _ _.
Arguments sized_data {source} _.
Arguments sized_width {source} _.
Arguments sized_height {source} _.

(** [(a, b) => a.width > b.width ? a : b], where [a] starts as [{}]
    ([None]): its [width] is undefined and the comparison is false. *)
Definition wider {source : Type} (a : option (sized source)) (b : sized source)
    : option (sized source) :=
  match a with
  | Some a' => if sized_width a' >? sized_width b then Some a' else Some b
  | None => Some b
  end.

Section Collaborators.
(** The external collaborators: the contents of an image file, its
    decoder, its measurer and its resizer. *)
Variable source : Type.
Variable parsePng : source → outcome image.
Variable imageSize : source → outcome (Z * Z).
Variable resizeImg : source → Z → Z → outcome source.

Definition generateIco (data : list source) : outcome buffer :=
  decoded ← Promise_all (map parsePng data);
  generateIco_decoded decoded.

Definition resizeImages (data : list source) (opts : gmap string jsval)
    : outcome (list source) :=
  measured ← mapM (λ x, size ← imageSize x;
                        mret (Sized x size.1 size.2)) data;
  let data := foldl wider None measured in
  match opts !! "sizes" with
  | Some (JArr sizes) =>
      Promise_all
        (map (λ x, match data with
                   | Some d => resizeImg (sized_data d) x x
                   | None => Throw ERR_TYPE
                   end)
             (List.filter (λ x, match data with
                                | Some d => x <=? sized_width d
                                | None => false
                                end) sizes))
  | _ => Throw ERR_TYPE
  end.

(** [module.exports] *)
Definition toIco (i : input source) (opts : option (gmap string jsval))
    : outcome buffer :=
  let data := arrify i in
  let opts := assign_opts opts in
  if truthy (opts !! "resize") then
    resized ← resizeImages data opts;
    generateIco resized
  else generateIco data.

End Collaborators.

(** Little-endian decoding of a field, to state what a header holds. *)
Fixpoint le_value (bs : list byte) : Z :=
  match bs with
  | [] => 0
  | b :: rest => Z_of_byte b + 256 * le_value rest
  end.

(** The unsigned field of [size] bytes at [offset]. *)
Definition field (buf : buffer) (offset size : nat) : Z :=
  le_value (take size (drop offset buf)).

(** The same field read as a signed 32-bit integer. *)
Definition field_i32 (buf : buffer) (offset : nat) : Z :=
  ToInt32 (field buf offset 4).

(** ** Layouts, to state what the encoder writes *)

(** The width or height byte of a directory entry. *)
Definition dim_byte (d : Z) : Z := if d =? 256 then 0 else d.

(** The size a directory entry records for its block. *)
Definition directory_size (x : image) : Z :=
  Z.of_nat (length (data x)) + 40
  + (if bpp x =? 4 then getMaskScanWidth (width x) * height x else 0).

(** The sixteen bytes of a directory entry, field after field. *)
Definition directory_layout (x : image) (offset : Z) : buffer :=
  le_bytes 1 (dim_byte (width x)) ++ le_bytes 1 (dim_byte (height x))
  ++ le_bytes 1 0 ++ le_bytes 1 0 ++ le_bytes 2 1 ++ le_bytes 2 (bpp x * 8)
  ++ le_bytes 4 (directory_size x) ++ le_bytes 4 offset.

(** The forty bytes of a bitmap info header, field after field. *)
Definition bitmap_layout (x : image) (compression : Z) : buffer :=
  le_bytes 4 40 ++ le_bytes 4 (width x) ++ le_bytes 4 (height x * 2)
  ++ le_bytes 2 1 ++ le_bytes 2 (bpp x * 8) ++ le_bytes 4 compression
  ++ le_bytes 4 (Z.of_nat (length (data x)))
  ++ le_bytes 4 0 ++ le_bytes 4 0 ++ le_bytes 4 0 ++ le_bytes 4 0.

(** The three buffers of an image block, as the second loop makes them. *)
Definition is_block (x : image) (b : buffer * buffer * buffer) : Prop :=
  createBitmap x constants.colorMode = Ok b.1.1
  ∧ createDib (data x) (width x) (height x) (bpp x) = Ok b.1.2
  ∧ (if bpp x =? 4 then createMask b.1.2 (width x) (height x) 1
     else bufferAlloc 0) = Ok b.2.

Definition block_bytes (b : buffer * buffer * buffer) : buffer :=
  b.1.1 ++ b.1.2 ++ b.2.

(** The directory entries of a run of images whose first block starts at
    [offset], as the first loop makes them. *)
Inductive directory_run : Z → list image → list buffer → Prop :=
  | directory_run_nil offset : directory_run offset [] []
  | directory_run_cons offset x rest buf size dirs :
      createDirectory x offset = Ok (buf, size) →
      directory_run (offset + size) rest dirs →
      directory_run offset (x :: rest) (buf :: dirs).

(** Sum of integers. *)
Definition sumZ (l : list Z) : Z := foldr Z.add 0 l.

(** Entry [i] of the directory of a file, and its two 32-bit fields. *)
Definition entry (out : buffer) (i : nat) : buffer :=
  take 16 (drop (6 + 16 * i) out).
Definition sizeInBytes (e : buffer) : Z := field e 8 4.
Definition fileOffset (e : buffer) : Z := field e 12 4.

(** An outcome that is a value or the range error of a buffer access:
    no other error, and an end. *)
Definition settles {A : Type} (m : outcome A) : Prop :=
  (∃ a, m = Ok a) ∨ m = Throw ERR_OUT_OF_RANGE.

(** An image of four bytes a pixel within the sizes of the format, whose
    buffer holds all its pixels. *)
Definition rgba_image (x : image) : Prop :=
  bpp x = 4 ∧ 1 ≤ width x ≤ 256 ∧ 1 ≤ height x ≤ 256
  ∧ width x * height x * 4 ≤ Z.of_nat (length (data x)).


(** ** Pixels and mask bits, to state what the encoder computes *)

(** Where byte [c] of a row comes from: the first and third byte of each
    pixel change places. *)
Definition swap_rb (c : Z) : Z :=
  if c mod 4 =? 0 then c + 2 else if c mod 4 =? 2 then c - 2 else c.


(** The alpha byte of pixel [(x, y)] of a buffer of four-byte pixels, [w]
    pixels a row. *)
Definition alpha (data : buffer) (w x y : Z) : Z :=
  match data !! Z.to_nat ((y * w + x) * 4 + 3) with
  | Some a => Z_of_byte a
  | None => 0
  end.

(** Bit [b] of byte [j] of row [y] of the mask, as the format wants it:
    bit 7 is pixel [8 * j], bit 0 is pixel [8 * j + 7]; a bit is set when
    its pixel exists and its alpha is below the threshold. *)
Definition mask_bit_spec (data : buffer) (w t y j b : Z) : bool :=
  (b <? 8) && (8 * j + (7 - b) <? w) && (alpha data w (8 * j + (7 - b)) y <? t).

Definition mask_byte_ok (data : buffer) (w t y j : Z) (m : byte) : Prop :=
  ∀ b, 0 ≤ b → Z.testbit (Z_of_byte m) b = mask_bit_spec data w t y j b.

(** What a stretch of bytes of the mask must be once [n] bytes of row [y]
    are packed from [dst0] on: those bytes follow the format, the others
    are still those of [buf0]. *)
Definition row_packed (data : buffer) (w t y dst0 n : Z) (buf0 buf : buffer)
    : Prop :=
  length buf = length buf0
  ∧ ∀ i, 0 ≤ i →
      if decide (dst0 ≤ i < dst0 + n)
      then ∃ m, buf !! Z.to_nat i = Some m
                ∧ mask_byte_ok data w t y (i - dst0) m
      else buf !! Z.to_nat i = buf0 !! Z.to_nat i.

(** Sources standing for square images of a given side, to run the
    exported function: decoding gives a clear image of that side. *)
Definition square_png (n : Z) : outcome image :=
  Ok (Image n n 4 (replicate (Z.to_nat (n * n * 4)) x00)).
Definition square_size (n : Z) : outcome (Z * Z) := Ok (n, n).
Definition square_resize (_ : Z) (w _ : Z) : outcome Z := Ok w.

(** * Properties *)

(** ** Bytes and outcomes *)

Lemma Z_of_byte_range b : 0 ≤ Z_of_byte b ≤ 255.
Proof. unfold Z_of_byte. pose proof (Byte.to_N_bounded b). lia. Qed.

Lemma byte_of_Z_of_byte b : byte_of_Z (Z_of_byte b) = b.
Proof.
  unfold byte_of_Z. pose proof (Z_of_byte_range b).
  rewrite Z.mod_small by lia. unfold Z_of_byte.
  by rewrite N2Z.id, Byte.of_to_N.
Qed.

Lemma Z_of_byte_of_Z z : Z_of_byte (byte_of_Z z) = z mod 256.
Proof.
  unfold byte_of_Z, Z_of_byte. pose proof (Z.mod_pos_bound z 256).
  destruct (Byte.of_N _) eqn:E; simpl.
  - apply Byte.to_of_N in E. rewrite E. lia.
  - apply Byte.of_N_None_iff in E. lia.
Qed.

Lemma bind_Ok {A B} (m : outcome A) (f : A → outcome B) b :
  m ≫= f = Ok b → ∃ a, m = Ok a ∧ f a = Ok b.
Proof. destruct m; simpl; intros; try discriminate. eauto. Qed.

(** Linear arithmetic with division and remainder by constants. *)
Ltac zlia := Z.div_mod_to_equations; lia.

Ltac inv_bind H :=
  repeat match type of H with
         | _ ≫= _ = Ok _ =>
             let a := fresh "v" in
             let E := fresh "E" in
             apply bind_Ok in H as (a & E & H)
         end.

(** ** Loops *)

Ltac ok_step := cbn [mbind outcome_bind mret outcome_ret].

Section Loops.
Context {St : Type} (test : St → bool) (body : St → outcome St).

Lemma for_loop_unfold fuel s :
  for_loop fuel test body s
  = if test s then
      match fuel with
      | O => Diverge
      | S fuel' => s' ← body s; for_loop fuel' test body s'
      end
    else Ok s.
Proof. by destruct fuel. Qed.

(** A loop that runs [n] times: the invariant, indexed by the number of
    rounds done, is kept by each round and denies the test after [n]. *)
Lemma for_loop_counted (I : nat → St → Prop) (n fuel : nat) (s0 : St) :
  I 0%nat s0 →
  (∀ k s, (k < n)%nat → I k s →
     test s = true ∧ ∃ s', body s = Ok s' ∧ I (S k) s') →
  (∀ s, I n s → test s = false) →
  (n ≤ fuel)%nat →
  ∃ s', for_loop fuel test body s0 = Ok s' ∧ I n s'.
Proof.
  intros H0 Hstep Hend Hfuel.
  assert (G : ∀ d k s fuel', (k + d = n)%nat → I k s → (d ≤ fuel')%nat →
              ∃ s', for_loop fuel' test body s = Ok s' ∧ I n s').
  { induction d as [|d IH]; intros k s fuel' Hk HI Hf.
    - replace k with n in HI by lia.
      exists s. split; [|done].
      rewrite for_loop_unfold. by rewrite (Hend s HI).
    - destruct fuel' as [|fuel']; [lia|].
      destruct (Hstep k s) as (Ht & s' & Hb & HI'); [lia|done|].
      rewrite for_loop_unfold, Ht, Hb. ok_step.
      apply (IH (S k)); [lia|done|lia]. }
  apply (G n 0%nat); [lia|done|done].
Qed.

(** A loop whose round [n] throws after [n] good rounds. *)
Lemma for_loop_throws (I : nat → St → Prop) (n fuel : nat) (s0 : St) e :
  I 0%nat s0 →
  (∀ k s, (k < n)%nat → I k s →
     test s = true ∧ ∃ s', body s = Ok s' ∧ I (S k) s') →
  (∀ s, I n s → test s = true ∧ body s = Throw e) →
  (n < fuel)%nat →
  for_loop fuel test body s0 = Throw e.
Proof.
  intros H0 Hstep Hend Hfuel.
  assert (G : ∀ d k s fuel', (k + d = n)%nat → I k s → (d < fuel')%nat →
              for_loop fuel' test body s = Throw e).
  { induction d as [|d IH]; intros k s fuel' Hk HI Hf.
    - replace k with n in HI by lia.
      destruct (Hend s HI) as [Ht Hb].
      destruct fuel'; [lia|]. by rewrite for_loop_unfold, Ht, Hb.
    - destruct fuel' as [|fuel']; [lia|].
      destruct (Hstep k s) as (Ht & s' & Hb & HI'); [lia|done|].
      rewrite for_loop_unfold, Ht, Hb. ok_step.
      apply (IH (S k)); [lia|done|lia]. }
  apply (G n 0%nat); [lia|done|done].
Qed.
End Loops.

Arguments for_loop : simpl never.

Lemma bufferAlloc_Ok size :
  0 ≤ size → bufferAlloc size = Ok (replicate (Z.to_nat size) x00).
Proof. intros H. unfold bufferAlloc. by destruct (Z.ltb_spec size 0); [lia|]. Qed.

(** ** Reads and writes *)

Lemma readUInt8_Ok (buf : buffer) offset b :
  0 ≤ offset → buf !! Z.to_nat offset = Some b →
  readUInt8 buf offset = Ok (Z_of_byte b).
Proof.
  intros H0 Hb. unfold readUInt8, in_bounds.
  apply lookup_lt_Some in Hb as Hlt. rewrite Hb.
  destruct (0 <=? offset) eqn:E1; [|lia].
  destruct (offset + 1 <=? Z.of_nat (length buf)) eqn:E2; [done|lia].
Qed.

Lemma readUInt8_out (buf : buffer) offset :
  offset < 0 ∨ Z.of_nat (length buf) ≤ offset →
  readUInt8 buf offset = Throw ERR_OUT_OF_RANGE.
Proof.
  intros H. unfold readUInt8, in_bounds.
  destruct (0 <=? offset) eqn:E1; [|done].
  destruct (offset + 1 <=? Z.of_nat (length buf)) eqn:E2; [lia|done].
Qed.

Lemma length_write_bytes bs : ∀ (buf : buffer) pos,
  length (write_bytes buf pos bs) = length buf.
Proof.
  induction bs as [|b bs IH]; intros buf pos; simpl; [done|].
  by rewrite IH, length_insert.
Qed.

Lemma write_int_Ok_inv size min max (buf : buffer) value offset buf' :
  write_int size min max buf value offset = Ok buf' →
  min ≤ value ≤ max ∧ 0 ≤ offset ∧ offset + Z.of_nat size ≤ Z.of_nat (length buf)
  ∧ buf' = write_bytes buf (Z.to_nat offset) (le_bytes size value).
Proof.
  unfold write_int, in_bounds. intros H.
  destruct (min <=? value) eqn:E1; [|done].
  destruct (value <=? max) eqn:E2; [|done].
  destruct (0 <=? offset) eqn:E3; [|done].
  destruct (offset + Z.of_nat size <=? Z.of_nat (length buf)) eqn:E4; [|done].
  simpl in H. injection H as <-. repeat split; lia.
Qed.

Lemma write_int_Ok size min max (buf : buffer) value offset :
  min ≤ value ≤ max → 0 ≤ offset →
  offset + Z.of_nat size ≤ Z.of_nat (length buf) →
  write_int size min max buf value offset
  = Ok (write_bytes buf (Z.to_nat offset) (le_bytes size value)).
Proof.
  intros Hv H0 Hl. unfold write_int, in_bounds.
  destruct (min <=? value) eqn:E1; [|lia].
  destruct (value <=? max) eqn:E2; [|lia].
  destruct (0 <=? offset) eqn:E3; [|lia].
  destruct (offset + Z.of_nat size <=? Z.of_nat (length buf)) eqn:E4; [done|lia].
Qed.

Lemma write_int_length size min max (buf : buffer) value offset buf' :
  write_int size min max buf value offset = Ok buf' → length buf' = length buf.
Proof.
  intros H. apply write_int_Ok_inv in H as (_ & _ & _ & ->).
  apply length_write_bytes.
Qed.

Lemma write_int_out size min max (buf : buffer) value offset :
  offset < 0 ∨ Z.of_nat (length buf) < offset + Z.of_nat size →
  write_int size min max buf value offset = Throw ERR_OUT_OF_RANGE.
Proof.
  intros H. unfold write_int, in_bounds.
  destruct (_ && _); [|done].
  destruct (0 <=? offset) eqn:E3; [|done].
  destruct (offset + Z.of_nat size <=? Z.of_nat (length buf)) eqn:E4; [lia|done].
Qed.

(** A write never diverges, and its only error is the range error. *)
Lemma write_int_result size min max (buf : buffer) value offset :
  (∃ buf', write_int size min max buf value offset = Ok buf')
  ∨ write_int size min max buf value offset = Throw ERR_OUT_OF_RANGE.
Proof.
  unfold write_int. destruct (_ && _); [|by right].
  destruct (in_bounds _ _ _); [left; eauto|by right].
Qed.

Lemma readUInt8_result (buf : buffer) offset :
  (∃ v, readUInt8 buf offset = Ok v)
  ∨ readUInt8 buf offset = Throw ERR_OUT_OF_RANGE.
Proof.
  unfold readUInt8. destruct (in_bounds _ _ _); [|by right].
  destruct (_ !! _); [left; eauto|by right].
Qed.

Lemma writeUInt8_byte (buf : buffer) b offset :
  0 ≤ offset < Z.of_nat (length buf) →
  writeUInt8 buf (Z_of_byte b) offset = Ok (<[Z.to_nat offset := b]> buf).
Proof.
  intros H. unfold writeUInt8. pose proof (Z_of_byte_range b).
  rewrite write_int_Ok by (simpl; lia). simpl.
  rewrite Z.mod_small by lia. by rewrite byte_of_Z_of_byte.
Qed.

Lemma writeUInt8_value (buf : buffer) v offset :
  0 ≤ v ≤ 255 → 0 ≤ offset < Z.of_nat (length buf) →
  writeUInt8 buf v offset = Ok (<[Z.to_nat offset := byte_of_Z v]> buf).
Proof.
  intros Hv H. unfold writeUInt8.
  rewrite write_int_Ok by (simpl; lia). simpl.
  by rewrite Z.mod_small by lia.
Qed.

(** ** [createDib] on pixels of four bytes *)

Lemma swap_rb_involutive c : swap_rb (swap_rb c) = c.
Proof.
  unfold swap_rb.
  repeat match goal with
         | |- context [?a =? ?b] => destruct (Z.eqb_spec a b)
         end; zlia.
Qed.

Lemma swap_rb_bounds c n : 0 ≤ c < 4 * n → 0 ≤ swap_rb c < 4 * n.
Proof.
  unfold swap_rb. intros H.
  repeat match goal with
         | |- context [?a =? ?b] => destruct (Z.eqb_spec a b)
         end; zlia.
Qed.

Lemma swap_rb_pixel k j :
  0 ≤ j < 4 →
  swap_rb (4 * k + j)
  = 4 * k + (if j =? 0 then 2 else if j =? 2 then 0 else j).
Proof.
  intros H. unfold swap_rb.
  repeat match goal with
         | |- context [?a =? ?b] => destruct (Z.eqb_spec a b)
         end; zlia.
Qed.

Lemma createDib_pixel_Ok (data buf : buffer) end_ row col r g b a :
  0 ≤ row + col →
  data !! Z.to_nat (row + col) = Some r →
  data !! Z.to_nat (row + col + 1) = Some g →
  data !! Z.to_nat (row + col + 2) = Some b →
  data !! Z.to_nat (row + col + 3) = Some a →
  0 ≤ end_ - row + col →
  end_ - row + col + 3 < Z.of_nat (length buf) →
  createDib_pixel data end_ row buf col
  = Ok (<[Z.to_nat (end_ - row + col + 3) := a]>
       (<[Z.to_nat (end_ - row + col + 2) := r]>
       (<[Z.to_nat (end_ - row + col + 1) := g]>
       (<[Z.to_nat (end_ - row + col) := b]> buf)))).
Proof.
  intros Hs Hr Hg Hb Ha Hd Hl. unfold createDib_pixel.
  rewrite (readUInt8_Ok _ _ _ Hs Hr); simpl.
  rewrite (readUInt8_Ok data (row + col + 1) _ ltac:(lia) Hg); simpl.
  rewrite (readUInt8_Ok data (row + col + 2) _ ltac:(lia) Hb); simpl.
  rewrite (readUInt8_Ok data (row + col + 3) _ ltac:(lia) Ha); simpl.
  rewrite (writeUInt8_byte buf b) by lia; simpl.
  rewrite (writeUInt8_byte _ g) by (rewrite ?length_insert; lia); simpl.
  rewrite (writeUInt8_byte _ r) by (rewrite ?length_insert; lia); simpl.
  rewrite (writeUInt8_byte _ a) by (rewrite ?length_insert; lia); simpl.
  done.
Qed.

(** One row: the inner loop of [createDib] copies the [4 * w] bytes at
    [row] of the source to [end_ - row] of the destination, red and blue
    exchanged, and touches nothing else. *)
Lemma createDib_row (data buf0 : buffer) w end_ row :
  0 ≤ w → 0 ≤ row → row + 4 * w ≤ Z.of_nat (length data) →
  0 ≤ end_ - row → end_ - row + 4 * w ≤ Z.of_nat (length buf0) →
  ∃ buf1,
    for_loop (S (Z.to_nat (w * 4)))
      (λ '(_, col), col <? w * 4)
      (λ '(buf, col),
        buf ← createDib_pixel data end_ row buf col; mret (buf, col + 4))
      (buf0, 0) = Ok (buf1, w * 4)
    ∧ length buf1 = length buf0
    ∧ ∀ i, 0 ≤ i →
        buf1 !! Z.to_nat i
        = if decide (end_ - row ≤ i < end_ - row + 4 * w)
          then data !! Z.to_nat (row + swap_rb (i - (end_ - row)))
          else buf0 !! Z.to_nat i.
Proof.
  intros Hw Hrow Hsrc Hbase Hdst.
  set (base := end_ - row) in *.
  set (I := λ (k : nat) (s : buffer * Z),
         s.2 = 4 * Z.of_nat k ∧ length s.1 = length buf0
         ∧ ∀ i, 0 ≤ i →
             s.1 !! Z.to_nat i
             = if decide (base ≤ i < base + 4 * Z.of_nat k)
               then data !! Z.to_nat (row + swap_rb (i - base))
               else buf0 !! Z.to_nat i).
  destruct (for_loop_counted
              (λ '(_, col), col <? w * 4)
              (λ '(buf, col),
                buf ← createDib_pixel data end_ row buf col; mret (buf, col + 4))
              I (Z.to_nat w) (S (Z.to_nat (w * 4))) (buf0, 0))
    as ([buf1 col] & Hrun & Hcol & Hlen & Hbuf).
  - split; [done|]. split; [done|]. intros i Hi. simpl.
    case_decide; [lia|done].
  - intros k [buf col] Hk (Hc & Hl & Hb); simpl in *. subst col.
    split; [apply Z.ltb_lt; lia|].
    destruct (lookup_lt_is_Some_2 data (Z.to_nat (row + 4 * Z.of_nat k)))
      as [r Hr]; [lia|].
    destruct (lookup_lt_is_Some_2 data (Z.to_nat (row + 4 * Z.of_nat k + 1)))
      as [g Hg]; [lia|].
    destruct (lookup_lt_is_Some_2 data (Z.to_nat (row + 4 * Z.of_nat k + 2)))
      as [b Hbl]; [lia|].
    destruct (lookup_lt_is_Some_2 data (Z.to_nat (row + 4 * Z.of_nat k + 3)))
      as [a Ha]; [lia|].
    eexists. split.
    { rewrite (createDib_pixel_Ok _ _ _ _ _ r g b a) by (done || lia).
      simpl. reflexivity. }
    split; [simpl; lia|]. split; [simpl; by rewrite !length_insert|].
    intros i Hi. simpl. fold base.
    rewrite !list_lookup_insert, !length_insert.
    pose proof (swap_rb_pixel (Z.of_nat k) 0 ltac:(lia)) as S0.
    pose proof (swap_rb_pixel (Z.of_nat k) 1 ltac:(lia)) as S1.
    pose proof (swap_rb_pixel (Z.of_nat k) 2 ltac:(lia)) as S2.
    pose proof (swap_rb_pixel (Z.of_nat k) 3 ltac:(lia)) as S3.
    simpl in S0, S1, S2, S3.
    specialize (Hb i Hi).
    repeat case_decide; try lia; try done;
      match goal with
      | Hx : data !! _ = Some ?x |- Some ?x = _ => rewrite <- Hx; f_equal
      end;
      first [ replace (i - base) with (4 * Z.of_nat k + 0) by lia; rewrite S0; lia
            | replace (i - base) with (4 * Z.of_nat k + 1) by lia; rewrite S1; lia
            | replace (i - base) with (4 * Z.of_nat k + 2) by lia; rewrite S2; lia
            | replace (i - base) with (4 * Z.of_nat k + 3) by lia; rewrite S3; lia ].
  - intros [buf col] (Hc & _); simpl in *. apply Z.ltb_ge. lia.
  - lia.
  - simpl in *. assert (Hc' : col = w * 4) by lia. clear Hcol. subst col.
    exists buf1. split; [done|]. split; [done|].
    intros i Hi. rewrite (Hbuf i Hi).
    repeat case_decide; (done || lia).
Qed.

(** The whole of [createDib] on four-byte pixels, for a source that holds
    at least the [h] rows: destination row [q] is source row [h - 1 - q]
    with red and blue exchanged; what lies past the rows stays zero. *)
Lemma createDib_rgba (data : buffer) w h :
  0 < w → 0 ≤ h → h * (w * 4) ≤ Z.of_nat (length data) →
  ∃ buf,
    createDib data w h 4 = Ok buf
    ∧ length buf = length data
    ∧ (∀ q c, 0 ≤ q < h → 0 ≤ c < w * 4 →
         buf !! Z.to_nat (q * (w * 4) + c)
         = data !! Z.to_nat ((h - 1 - q) * (w * 4) + swap_rb c))
    ∧ (∀ i, h * (w * 4) ≤ i →
         buf !! Z.to_nat i = replicate (length data) x00 !! Z.to_nat i).
Proof.
  intros Hw Hh Hlen. unfold createDib.
  rewrite bufferAlloc_Ok, Nat2Z.id by lia. ok_step.
  set (cols := w * 4) in *.
  set (zeros := replicate (length data) x00).
  set (I := λ (r : nat) (s : buffer * Z),
         s.2 = Z.of_nat r * cols ∧ length s.1 = length data
         ∧ (∀ q c, h - Z.of_nat r ≤ q < h → 0 ≤ c < cols →
              s.1 !! Z.to_nat (q * cols + c)
              = data !! Z.to_nat ((h - 1 - q) * cols + swap_rb c))
         ∧ (∀ i, 0 ≤ i → i < (h - Z.of_nat r) * cols ∨ h * cols ≤ i →
              s.1 !! Z.to_nat i = zeros !! Z.to_nat i)).
  match goal with
  | |- ∃ _, for_loop ?f ?t ?b ?s ≫= _ = _ ∧ _ =>
      destruct (for_loop_counted t b I (Z.to_nat h) f s)
        as ([buf row] & Hrun & Hrow & Hl & Hrows & Hrest)
  end.
  - split; [done|]. split; [apply length_replicate|].
    split; [intros; lia|done].
  - intros r [buf row] Hr (Hrow & Hl & Hrows & Hrest); simpl in *. subst row.
    assert (Hr1 : (Z.of_nat r + 1) * cols ≤ h * cols) by nia.
    split; [apply Z.ltb_lt; nia|].
    destruct (createDib_row data buf w (h * cols - cols) (Z.of_nat r * cols))
      as (buf1 & Hrun & Hl1 & Hb1); try (fold cols; nia).
    fold cols in Hrun, Hb1.
    eexists. split; [rewrite Hrun; ok_step; reflexivity|].
    split; [simpl; lia|]. split; [simpl; congruence|]. simpl. split.
    + intros q c Hq Hc. rewrite Hb1 by nia.
      destruct (decide (q = h - 1 - Z.of_nat r)) as [->|Hne].
      * rewrite decide_True by nia. f_equal. f_equal.
        replace (h - 1 - (h - 1 - Z.of_nat r)) with (Z.of_nat r) by lia.
        f_equal. f_equal. lia.
      * rewrite decide_False by nia. apply Hrows; lia.
    + intros i Hi Hout. rewrite Hb1 by done.
      rewrite decide_False by nia. apply Hrest; [done|]. nia.
  - intros [buf row] (Hrow & _); simpl in *. apply Z.ltb_ge. nia.
  - nia.
  - simpl in *. rewrite Hrun. ok_step. exists buf.
    split; [done|]. split; [done|]. split.
    + intros q c Hq Hc. apply Hrows; lia.
    + intros i Hi. apply Hrest; nia.
Qed.

(** ** [createDib] on pixels of three bytes *)




(** ** 32-bit operators and bits of a byte *)

Lemma ToInt32_small z : -2147483648 ≤ z < 2147483648 → ToInt32 z = z.
Proof. intros H. unfold ToInt32. rewrite Z.mod_small; lia. Qed.

Lemma getMaskScanWidth_eq w :
  0 ≤ w < 1073741824 → getMaskScanWidth w = (w + 31) / 32 * 4.
Proof.
  intros H. unfold getMaskScanWidth, js_shl, js_sar.
  change (5 mod 32) with 5. change (2 mod 32) with 2.
  rewrite (ToInt32_small (w + 31)) by lia.
  rewrite Z.shiftr_div_pow2 by lia. change (2 ^ 5) with 32.
  assert (0 ≤ (w + 31) / 32 < 33554433) by zlia.
  rewrite (ToInt32_small ((w + 31) / 32)) by lia.
  rewrite Z.shiftl_mul_pow2 by lia. change (2 ^ 2) with 4.
  apply ToInt32_small. lia.
Qed.

Lemma lor_byte a b : 0 ≤ a ≤ 255 → 0 ≤ b ≤ 255 → 0 ≤ Z.lor a b ≤ 255.
Proof.
  intros Ha Hb.
  assert (H0 : 0 ≤ Z.lor a b) by (apply Z.lor_nonneg; lia).
  split; [done|].
  destruct (decide (Z.lor a b = 0)) as [->|Hne]; [lia|].
  assert (Z.lor a b < 2 ^ 8); [|lia].
  apply Z.log2_lt_pow2; [lia|].
  rewrite Z.log2_lor by lia.
  assert (La : Z.log2 a < 8).
  { destruct (decide (a = 0)) as [->|?]; [done|]. apply Z.log2_lt_pow2; lia. }
  assert (Lb : Z.log2 b < 8).
  { destruct (decide (b = 0)) as [->|?]; [done|]. apply Z.log2_lt_pow2; lia. }
  lia.
Qed.

Lemma js_or_byte a b :
  0 ≤ a ≤ 255 → 0 ≤ b ≤ 255 → js_or a b = Z.lor a b.
Proof. intros Ha Hb. unfold js_or. by rewrite !ToInt32_small by lia. Qed.

(** The value [c ? 0 : 2^k] of one pixel of the mask. *)
Lemma pixel_bit_range (c : bool) k :
  0 ≤ k ≤ 7 → 0 ≤ (if c then 0 else 2 ^ k) ≤ 255.
Proof.
  intros Hk. destruct c; [lia|].
  assert (2 ^ k ≤ 2 ^ 7) by (apply Z.pow_le_mono_r; lia).
  assert (0 < 2 ^ k) by (apply Z.pow_pos_nonneg; lia).
  change (2 ^ 7) with 128 in *. lia.
Qed.

Lemma pixel_bit_testbit (c : bool) k b :
  0 ≤ k → 0 ≤ b →
  Z.testbit (if c then 0 else 2 ^ k) b = negb c && (k =? b).
Proof.
  intros Hk Hb. destruct c; simpl; [apply Z.bits_0|].
  by apply Z.pow2_bits_eqb.
Qed.

Lemma js_or_pixel_bit V (c : bool) k :
  0 ≤ V ≤ 255 → 0 ≤ k ≤ 7 →
  0 ≤ js_or V (if c then 0 else 2 ^ k) ≤ 255
  ∧ ∀ b, 0 ≤ b →
      Z.testbit (js_or V (if c then 0 else 2 ^ k)) b
      = Z.testbit V b || (negb c && (k =? b)).
Proof.
  intros HV Hk. pose proof (pixel_bit_range c k Hk) as Hp.
  rewrite js_or_byte by done. split; [by apply lor_byte|].
  intros b Hb. by rewrite Z.lor_spec, pixel_bit_testbit by lia.
Qed.

(** ** [createMask] *)

Lemma mask_bit_Ok (data : buffer) srcPos t bit a :
  0 ≤ srcPos → data !! Z.to_nat srcPos = Some a →
  mask_bit data srcPos t bit = Ok (if Z_of_byte a >=? t then 0 else bit).
Proof.
  intros H0 Ha. unfold mask_bit. by rewrite (readUInt8_Ok _ _ _ H0 Ha).
Qed.

Lemma negb_geb a t : negb (a >=? t) = (a <? t).
Proof. rewrite Z.geb_leb. destruct (Z.leb_spec t a), (Z.ltb_spec a t); (done || lia). Qed.

Lemma alpha_lookup (data : buffer) w x y p a :
  p = (y * w + x) * 4 + 3 → data !! Z.to_nat p = Some a →
  alpha data w x y = Z_of_byte a.
Proof. intros -> H. unfold alpha. by rewrite H. Qed.

(** The byte of eight pixels, [c0] (leftmost) to [c7], where [ck] says
    that pixel [k] is opaque enough. *)
Lemma group_byte (c0 c1 c2 c3 c4 c5 c6 c7 : bool) :
  let V := js_or (js_or (js_or (js_or (js_or (js_or (js_or
             (if c0 then 0 else 128) (if c1 then 0 else 64))
             (if c2 then 0 else 32)) (if c3 then 0 else 16))
             (if c4 then 0 else 8)) (if c5 then 0 else 4))
             (if c6 then 0 else 2)) (if c7 then 0 else 1) in
  0 ≤ V ≤ 255
  ∧ ∀ b, 0 ≤ b →
      Z.testbit V b
      = negb c0 && (7 =? b) || negb c1 && (6 =? b) || negb c2 && (5 =? b)
        || negb c3 && (4 =? b) || negb c4 && (3 =? b) || negb c5 && (2 =? b)
        || negb c6 && (1 =? b) || negb c7 && (0 =? b).
Proof.
  pose proof (pixel_bit_range c0 7 ltac:(lia)) as R0.
  pose proof (λ b, pixel_bit_testbit c0 7 b ltac:(lia)) as B0.
  destruct (js_or_pixel_bit _ c1 6 R0 ltac:(lia)) as [R1 B1].
  destruct (js_or_pixel_bit _ c2 5 R1 ltac:(lia)) as [R2 B2].
  destruct (js_or_pixel_bit _ c3 4 R2 ltac:(lia)) as [R3 B3].
  destruct (js_or_pixel_bit _ c4 3 R3 ltac:(lia)) as [R4 B4].
  destruct (js_or_pixel_bit _ c5 2 R4 ltac:(lia)) as [R5 B5].
  destruct (js_or_pixel_bit _ c6 1 R5 ltac:(lia)) as [R6 B6].
  destruct (js_or_pixel_bit _ c7 0 R6 ltac:(lia)) as [R7 B7].
  split; [exact R7|].
  intros b Hb.
  etransitivity; [apply (B7 b Hb)|]. rewrite (B6 b Hb), (B5 b Hb), (B4 b Hb).
  by rewrite (B3 b Hb), (B2 b Hb), (B1 b Hb), (B0 b Hb).
Qed.

(** Eight whole pixels: the byte has exactly the bits of the format. *)
Lemma createMask_group_spec (data : buffer) w t y j srcPos :
  0 ≤ w → 0 ≤ y → 0 ≤ j → 8 * j + 7 < w →
  srcPos = (y * w + 8 * j) * 4 + 3 →
  srcPos + 28 < Z.of_nat (length data) →
  ∃ V, createMask_group data srcPos t = Ok V
       ∧ 0 ≤ V ≤ 255
       ∧ ∀ b, 0 ≤ b → Z.testbit V b = mask_bit_spec data w t y j b.
Proof.
  intros Hw Hy Hj Hjw Hsrc Hlen.
  assert (Hpos : 0 ≤ srcPos) by nia.
  destruct (lookup_lt_is_Some_2 data (Z.to_nat srcPos)) as [a0 H0]; [lia|].
  destruct (lookup_lt_is_Some_2 data (Z.to_nat (srcPos + 4))) as [a1 H1]; [lia|].
  destruct (lookup_lt_is_Some_2 data (Z.to_nat (srcPos + 8))) as [a2 H2]; [lia|].
  destruct (lookup_lt_is_Some_2 data (Z.to_nat (srcPos + 12))) as [a3 H3]; [lia|].
  destruct (lookup_lt_is_Some_2 data (Z.to_nat (srcPos + 16))) as [a4 H4]; [lia|].
  destruct (lookup_lt_is_Some_2 data (Z.to_nat (srcPos + 20))) as [a5 H5]; [lia|].
  destruct (lookup_lt_is_Some_2 data (Z.to_nat (srcPos + 24))) as [a6 H6]; [lia|].
  destruct (lookup_lt_is_Some_2 data (Z.to_nat (srcPos + 28))) as [a7 H7]; [lia|].
  unfold createMask_group.
  rewrite (mask_bit_Ok data srcPos t _ a0) by (done || lia). ok_step.
  rewrite (mask_bit_Ok data (srcPos + 4) t _ a1) by (done || lia). ok_step.
  rewrite (mask_bit_Ok data (srcPos + 8) t _ a2) by (done || lia). ok_step.
  rewrite (mask_bit_Ok data (srcPos + 12) t _ a3) by (done || lia). ok_step.
  rewrite (mask_bit_Ok data (srcPos + 16) t _ a4) by (done || lia). ok_step.
  rewrite (mask_bit_Ok data (srcPos + 20) t _ a5) by (done || lia). ok_step.
  rewrite (mask_bit_Ok data (srcPos + 24) t _ a6) by (done || lia). ok_step.
  rewrite (mask_bit_Ok data (srcPos + 28) t _ a7) by (done || lia). ok_step.
  destruct (group_byte (Z_of_byte a0 >=? t) (Z_of_byte a1 >=? t)
              (Z_of_byte a2 >=? t) (Z_of_byte a3 >=? t) (Z_of_byte a4 >=? t)
              (Z_of_byte a5 >=? t) (Z_of_byte a6 >=? t) (Z_of_byte a7 >=? t))
    as [Hrange Hbits].
  eexists. split; [reflexivity|]. split; [exact Hrange|].
  intros b Hb. rewrite (Hbits b Hb). rewrite !negb_geb.
  rewrite <- (alpha_lookup data w (8 * j + 0) y srcPos a0 ltac:(lia) H0).
  rewrite <- (alpha_lookup data w (8 * j + 1) y (srcPos + 4) a1 ltac:(lia) H1).
  rewrite <- (alpha_lookup data w (8 * j + 2) y (srcPos + 8) a2 ltac:(lia) H2).
  rewrite <- (alpha_lookup data w (8 * j + 3) y (srcPos + 12) a3 ltac:(lia) H3).
  rewrite <- (alpha_lookup data w (8 * j + 4) y (srcPos + 16) a4 ltac:(lia) H4).
  rewrite <- (alpha_lookup data w (8 * j + 5) y (srcPos + 20) a5 ltac:(lia) H5).
  rewrite <- (alpha_lookup data w (8 * j + 6) y (srcPos + 24) a6 ltac:(lia) H6).
  rewrite <- (alpha_lookup data w (8 * j + 7) y (srcPos + 28) a7 ltac:(lia) H7).
  unfold mask_bit_spec.
  assert (Hc : b = 0 ∨ b = 1 ∨ b = 2 ∨ b = 3 ∨ b = 4 ∨ b = 5 ∨ b = 6 ∨ b = 7
               ∨ 8 ≤ b) by lia.
  destruct Hc as [->|[->|[->|[->|[->|[->|[->|[->|Hc]]]]]]]].
  1-8: simpl; rewrite ?andb_false_r, ?orb_false_r, ?orb_false_l, ?andb_true_r;
       match goal with
       | |- _ = (?e <? ?w') && _ => destruct (Z.ltb_spec e w'); [|lia]
       end; reflexivity.
  destruct (Z.ltb_spec b 8); [lia|]. cbn [andb].
  repeat match goal with
         | |- context [?k =? b] => destruct (Z.eqb_spec k b); [lia|]
         end.
  by rewrite !andb_false_r.
Qed.

Lemma mask_byte_ok_value (data : buffer) w t y j V :
  0 ≤ V ≤ 255 →
  (∀ b, 0 ≤ b → Z.testbit V b = mask_bit_spec data w t y j b) →
  mask_byte_ok data w t y j (byte_of_Z V).
Proof.
  intros HV Hbits b Hb. rewrite Z_of_byte_of_Z, Z.mod_small by lia.
  by apply Hbits.
Qed.

Lemma row_packed_write (data : buffer) w t y dst0 n buf0 buf V :
  0 ≤ n → 0 ≤ dst0 → dst0 + n < Z.of_nat (length buf0) →
  row_packed data w t y dst0 n buf0 buf →
  0 ≤ V ≤ 255 →
  (∀ b, 0 ≤ b → Z.testbit V b = mask_bit_spec data w t y n b) →
  writeUInt8 buf V (dst0 + n) = Ok (<[Z.to_nat (dst0 + n) := byte_of_Z V]> buf)
  ∧ row_packed data w t y dst0 (n + 1) buf0
      (<[Z.to_nat (dst0 + n) := byte_of_Z V]> buf).
Proof.
  intros Hn Hd Hlen [Hl Hp] HV Hbits. split.
  { apply writeUInt8_value; [done|lia]. }
  split; [by rewrite length_insert|].
  intros i Hi. specialize (Hp i Hi). rewrite list_lookup_insert.
  repeat case_decide; try lia; try done.
  exists (byte_of_Z V). split; [done|].
  replace (i - dst0) with n by lia. by apply mask_byte_ok_value.
Qed.

(** The whole groups of a row. *)
Lemma createMask_groups (data buf0 : buffer) w t y src0 dst0 :
  0 ≤ w → 0 ≤ y → 0 ≤ dst0 →
  src0 = (y * w) * 4 + 3 →
  (y * w + w) * 4 ≤ Z.of_nat (length data) →
  dst0 + w / 8 ≤ Z.of_nat (length buf0) →
  ∃ buf1,
    for_loop (S (Z.to_nat w))
      (λ '(_, x), x <? w - 7)
      (λ '(st, x),
        mask ← createMask_group data (ms_srcPos st) t;
        buf ← writeUInt8 (ms_buf st) mask (ms_dstPos st);
        mret (MaskState buf (ms_srcPos st + 32) (ms_dstPos st + 1), x + 8))
      (MaskState buf0 src0 dst0, 0)
    = Ok (MaskState buf1 (src0 + 32 * (w / 8)) (dst0 + w / 8), 8 * (w / 8))
    ∧ row_packed data w t y dst0 (w / 8) buf0 buf1.
Proof.
  intros Hw Hy Hd Hsrc Hlen Hdst.
  set (I := λ (g : nat) (s : mask_state * Z),
         s.2 = 8 * Z.of_nat g
         ∧ ms_srcPos s.1 = src0 + 32 * Z.of_nat g
         ∧ ms_dstPos s.1 = dst0 + Z.of_nat g
         ∧ row_packed data w t y dst0 (Z.of_nat g) buf0 (ms_buf s.1)).
  match goal with
  | |- ∃ _, for_loop ?f ?te ?b ?s = _ ∧ _ =>
      destruct (for_loop_counted te b I (Z.to_nat (w / 8)) f s)
        as ([[buf1 src1 dst1] x1] & Hrun & Hx & Hs & Hdd & Hp)
  end.
  - unfold I; simpl. split; [lia|]. split; [lia|]. split; [lia|].
    split; [done|]. intros i Hi. case_decide; [lia|done].
  - intros g [[buf src dst] x] Hg (Hx & Hs & Hdd & Hp); simpl in *. subst.
    assert (Hg' : Z.of_nat g < w / 8) by lia.
    split; [apply Z.ltb_lt; zlia|].
    destruct (createMask_group_spec data w t y (Z.of_nat g)
                (y * w * 4 + 3 + 32 * Z.of_nat g))
      as (V & HV & Hrange & Hbits); try (lia || zlia).
    rewrite HV. ok_step.
    destruct (row_packed_write data w t y dst0 (Z.of_nat g) buf0 buf V)
      as [Hwr Hp']; try (done || lia).
    rewrite Hwr. ok_step. eexists. split; [reflexivity|].
    unfold I; simpl. split; [lia|]. split; [lia|]. split; [lia|].
    by replace (Z.of_nat (S g)) with (Z.of_nat g + 1) by lia.
  - intros [[buf src dst] x] (Hx & _); simpl in *. apply Z.ltb_ge. zlia.
  - zlia.
  - simpl in *. exists buf1. rewrite Hrun.
    replace (Z.of_nat (Z.to_nat (w / 8))) with (w / 8) in * by zlia.
    split; [by subst|done].
Qed.

(** The [w % 8] pixels left after the whole groups of a row. *)
Lemma createMask_partial (data : buffer) w t y src1 :
  0 ≤ w → 0 ≤ y →
  src1 = (y * w + 8 * (w / 8)) * 4 + 3 →
  (y * w + w) * 4 ≤ Z.of_nat (length data) →
  ∃ mask,
    for_loop 8%nat
      (λ '(_, _, x), x <? Z.rem w 8)
      (λ '(mask, srcPos, x),
        m ← mask_bit data srcPos t (2 ^ (7 - x));
        mret (js_or mask m, srcPos + 4, x + 1))
      (0, src1, 0)
    = Ok (mask, src1 + 4 * (w mod 8), w mod 8)
    ∧ 0 ≤ mask ≤ 255
    ∧ ∀ b, 0 ≤ b → Z.testbit mask b = mask_bit_spec data w t y (w / 8) b.
Proof.
  intros Hw Hy Hsrc Hlen. rewrite Z.rem_mod_nonneg by lia.
  set (G := w / 8) in *.
  assert (Hrem : 0 ≤ w mod 8 < 8 ∧ w = 8 * G + w mod 8) by (unfold G; zlia).
  set (J := λ (k : nat) (s : Z * Z * Z),
         s.2 = Z.of_nat k ∧ s.1.2 = src1 + 4 * Z.of_nat k
         ∧ 0 ≤ s.1.1 ≤ 255
         ∧ ∀ b, 0 ≤ b →
             Z.testbit s.1.1 b
             = (b <? 8) && (7 - b <? Z.of_nat k)
               && (alpha data w (8 * G + (7 - b)) y <? t)).
  match goal with
  | |- ∃ _, for_loop ?f ?te ?b ?s = _ ∧ _ =>
      destruct (for_loop_counted te b J (Z.to_nat (w mod 8)) f s)
        as ([[mask src] x] & Hrun & Hx & Hs & Hm & Hbits)
  end.
  - unfold J; simpl. split; [done|]. split; [lia|]. split; [lia|].
    intros b Hb. rewrite Z.bits_0.
    destruct (Z.ltb_spec (7 - b) (Z.of_nat 0)); [|by rewrite andb_false_r].
    destruct (Z.ltb_spec b 8); [lia|done].
  - intros k [[mask src] x] Hk (Hx & Hs & Hm & Hbits); simpl in *. subst x src.
    split; [apply Z.ltb_lt; lia|].
    destruct (lookup_lt_is_Some_2 data (Z.to_nat (src1 + 4 * Z.of_nat k)))
      as [a Ha]; [nia|].
    rewrite (mask_bit_Ok data _ t _ a) by (done || nia). ok_step.
    eexists. split; [reflexivity|]. unfold J; simpl.
    split; [lia|]. split; [lia|].
    destruct (js_or_pixel_bit mask (Z_of_byte a >=? t) (7 - Z.of_nat k))
      as [Hr Hb']; [done|lia|].
    split; [done|]. intros b Hb. rewrite (Hb' b Hb), (Hbits b Hb), negb_geb.
    rewrite <- (alpha_lookup data w (8 * G + Z.of_nat k) y
                  (src1 + 4 * Z.of_nat k) a ltac:(lia) Ha).
    destruct (Z.eqb_spec (7 - Z.of_nat k) b) as [<-|Hne].
    + replace (7 - (7 - Z.of_nat k)) with (Z.of_nat k) by lia.
      destruct (Z.ltb_spec (7 - Z.of_nat k) 8); [|lia].
      destruct (Z.ltb_spec (Z.of_nat k) (Z.of_nat k)); [lia|].
      destruct (Z.ltb_spec (Z.of_nat k) (Z.of_nat (S k))); [|lia].
      simpl. by rewrite andb_true_r.
    + rewrite andb_false_r, orb_false_r.
      destruct (Z.ltb_spec (7 - b) (Z.of_nat k)),
               (Z.ltb_spec (7 - b) (Z.of_nat (S k))); (done || lia).
  - intros [[mask src] x] (Hx & _); simpl in *. apply Z.ltb_ge. lia.
  - lia.
  - simpl in *. exists mask. rewrite Hrun.
    replace (Z.of_nat (Z.to_nat (w mod 8))) with (w mod 8) in * by lia.
    subst x src. split; [done|]. split; [done|].
    intros b Hb. rewrite (Hbits b Hb). unfold mask_bit_spec. fold G.
    destruct (Z.ltb_spec (7 - b) (w mod 8)),
             (Z.ltb_spec (8 * G + (7 - b)) w); (done || lia).
Qed.

Ltac ok_step_mask :=
  cbn [mbind outcome_bind mret outcome_ret ms_buf ms_srcPos ms_dstPos].

(** One row of the mask: [(w + 7) / 8] bytes follow the format, the rest of
    the buffer is untouched, and the source position moves on by one row
    of pixels. *)
Lemma createMask_row_spec (data buf0 : buffer) w sw t y :
  0 ≤ w → 0 ≤ y → (w + 7) / 8 ≤ sw →
  (y * w + w) * 4 ≤ Z.of_nat (length data) →
  y * sw + sw ≤ Z.of_nat (length buf0) →
  ∃ buf1,
    createMask_row data w sw t buf0 (y * w * 4 + 3) y
    = Ok (buf1, (y + 1) * w * 4 + 3)
    ∧ row_packed data w t y (y * sw) ((w + 7) / 8) buf0 buf1.
Proof.
  intros Hw Hy Hsw Hlen Hdst. unfold createMask_row.
  assert (Hrem : 0 ≤ w mod 8 < 8 ∧ w = 8 * (w / 8) + w mod 8) by zlia.
  assert (Hsw0 : 0 ≤ sw) by zlia.
  assert (Hy0 : 0 ≤ y * sw) by nia.
  destruct (createMask_groups data buf0 w t y (y * w * 4 + 3) (y * sw))
    as (buf1 & Hrun & Hp); try (done || zlia).
  rewrite Hrun. ok_step_mask.
  destruct (Z.eqb_spec (Z.rem w 8) 0) as [E|E];
    rewrite Z.rem_mod_nonneg in E by lia; cbn [negb].
  - ok_step. exists buf1. split; [f_equal; f_equal; lia|].
    by replace ((w + 7) / 8) with (w / 8) by zlia.
  - destruct (createMask_partial data w t y
                (y * w * 4 + 3 + 32 * (w / 8)))
      as (mask & Hrun2 & Hrange & Hbits); try (done || lia).
    rewrite Hrun2. ok_step.
    destruct (row_packed_write data w t y (y * sw) (w / 8) buf0 buf1 mask)
      as [Hwr Hp']; try (done || zlia).
    rewrite Hwr. ok_step. eexists. split; [f_equal; f_equal; lia|].
    by replace ((w + 7) / 8) with (w / 8 + 1) by zlia.
Qed.

Lemma mask_byte_ok_zero (data : buffer) w t y j :
  (w + 7) / 8 ≤ j → mask_byte_ok data w t y j x00.
Proof.
  intros Hj b Hb. change (Z_of_byte x00) with 0. rewrite Z.bits_0.
  unfold mask_bit_spec.
  destruct (Z.ltb_spec b 8); [|done].
  destruct (Z.ltb_spec (8 * j + (7 - b)) w); [zlia|done].
Qed.

(** The whole mask: [sw * h] bytes, every one of which follows the
    format, where [sw] is the row width padded to four bytes. *)
Lemma createMask_bytes (data : buffer) w h t :
  0 ≤ w < 1073741824 → 0 ≤ h →
  w * h * 4 ≤ Z.of_nat (length data) →
  let sw := (w + 31) / 32 * 4 in
  ∃ mask,
    createMask data w h t = Ok mask
    ∧ Z.of_nat (length mask) = sw * h
    ∧ ∀ y j, 0 ≤ y < h → 0 ≤ j < sw →
        ∃ m, mask !! Z.to_nat (y * sw + j) = Some m
             ∧ mask_byte_ok data w t y j m.
Proof.
  intros Hw Hh Hlen sw. unfold createMask.
  rewrite getMaskScanWidth_eq by done. fold sw.
  assert (Hsw : (w + 7) / 8 ≤ sw) by (unfold sw; zlia).
  assert (Hsw0 : 0 ≤ sw) by (unfold sw; zlia).
  rewrite bufferAlloc_Ok by nia. ok_step.
  set (zeros := replicate (Z.to_nat (sw * h)) x00).
  set (I := λ (n : nat) (s : buffer * Z * Z),
         s.2 = Z.of_nat n ∧ s.1.2 = Z.of_nat n * w * 4 + 3
         ∧ Z.of_nat (length s.1.1) = sw * h
         ∧ (∀ y j, 0 ≤ y < Z.of_nat n → 0 ≤ j < sw →
              ∃ m, s.1.1 !! Z.to_nat (y * sw + j) = Some m
                   ∧ mask_byte_ok data w t y j m)
         ∧ (∀ i, Z.of_nat n * sw ≤ i < h * sw →
              s.1.1 !! Z.to_nat i = Some x00)).
  match goal with
  | |- ∃ _, for_loop ?f ?te ?b ?s ≫= _ = _ ∧ _ =>
      destruct (for_loop_counted te b I (Z.to_nat h) f s)
        as ([[mask src] y1] & Hrun & Hy1 & Hs & Hl & Hrows & _)
  end.
  - unfold I; simpl. split; [done|]. split; [done|].
    split; [unfold zeros; rewrite length_replicate; nia|].
    split; [intros; lia|].
    intros i Hi. apply lookup_replicate_2. nia.
  - intros n [[buf src] yv] Hn (Hyv & Hs & Hl & Hrows & Hz); simpl in *.
    subst yv src. set (y := Z.of_nat n) in *.
    assert (Hy : 0 ≤ y < h) by lia.
    assert (Hy1 : (y + 1) * sw ≤ h * sw) by nia.
    assert (Hy2 : (y + 1) * w ≤ h * w) by nia.
    split; [apply Z.ltb_lt; lia|].
    destruct (createMask_row_spec data buf w sw t y)
      as (buf1 & Hrun & Hl1 & Hp); try (done || nia).
    rewrite Hrun. ok_step. eexists. split; [reflexivity|].
    unfold I; simpl. split; [lia|]. split; [lia|]. split; [lia|]. split.
    + intros y' j Hy' Hj.
      assert (Hidx : 0 ≤ y' * sw + j) by nia.
      specialize (Hp (y' * sw + j) Hidx).
      destruct (decide (y' = y)) as [->|Hne].
      * case_decide as Hin.
        -- destruct Hp as (m & Hm & Hok). exists m. split; [done|].
           by replace (y * sw + j - y * sw) with j in Hok by lia.
        -- rewrite Hp, (Hz (y * sw + j)) by nia.
           exists x00. split; [done|]. apply mask_byte_ok_zero. lia.
      * rewrite decide_False in Hp by nia. rewrite Hp.
        apply Hrows; lia.
    + intros i Hi. assert (Hi0 : 0 ≤ i) by nia.
      specialize (Hp i Hi0). rewrite decide_False in Hp by nia.
      rewrite Hp. apply Hz. nia.
  - intros [[buf src] yv] (Hyv & _); simpl in *. apply Z.ltb_ge. lia.
  - lia.
  - simpl in *. rewrite Hrun. ok_step. exists mask.
    split; [done|]. split; [done|].
    intros y j Hy Hj. apply Hrows; lia.
Qed.

(** C3. For a transposed buffer of [w * h] four-byte pixels, [w] and [h] in
    1..256, [createMask] returns [(ceil(w / 32) * 4) * h] bytes; the bit
    [7 - x mod 8] of byte [y * scanWidth + x / 8] is set exactly when the
    alpha byte of pixel [(x, y)] is below the threshold, and every bit that
    belongs to no pixel is clear. *)
Theorem createMask_correct (data : buffer) w h t :
  1 ≤ w ≤ 256 → 1 ≤ h ≤ 256 →
  Z.of_nat (length data) = w * h * 4 →
  let scanWidth := (w + 31) / 32 * 4 in
  getMaskScanWidth w = scanWidth
  ∧ ∃ mask,
      createMask data w h t = Ok mask
      ∧ Z.of_nat (length mask) = scanWidth * h
      ∧ (∀ x y, 0 ≤ x < w → 0 ≤ y < h →
           ∃ m a,
             mask !! Z.to_nat (y * scanWidth + x / 8) = Some m
             ∧ data !! Z.to_nat ((y * w + x) * 4 + 3) = Some a
             ∧ Z.testbit (Z_of_byte m) (7 - x mod 8) = (Z_of_byte a <? t))
      ∧ (∀ i m b,
           mask !! i = Some m → 0 ≤ b →
           (∀ x y, 0 ≤ x < w → 0 ≤ y < h →
              ¬ (Z.of_nat i = y * scanWidth + x / 8 ∧ b = 7 - x mod 8)) →
           Z.testbit (Z_of_byte m) b = false).
Proof.
  intros Hw Hh Hlen sw. split; [apply getMaskScanWidth_eq; lia|].
  destruct (createMask_bytes data w h t) as (mask & Hrun & Hl & Hbytes);
    [lia|lia|lia|]. fold sw in Hl, Hbytes.
  assert (Hsw : 0 < sw ∧ (w + 7) / 8 ≤ sw) by (unfold sw; zlia).
  exists mask. split; [done|]. split; [done|]. split.
  - intros x y Hx Hy.
    destruct (Hbytes y (x / 8)) as (m & Hm & Hok); [done|zlia|].
    destruct (lookup_lt_is_Some_2 data (Z.to_nat ((y * w + x) * 4 + 3)))
      as [a Ha]; [nia|].
    exists m, a. split; [done|]. split; [done|].
    rewrite (Hok (7 - x mod 8)) by zlia. unfold mask_bit_spec.
    replace (8 * (x / 8) + (7 - (7 - x mod 8))) with x by zlia.
    rewrite (alpha_lookup data w x y _ a eq_refl Ha).
    destruct (Z.ltb_spec (7 - x mod 8) 8); [|zlia].
    by destruct (Z.ltb_spec x w); [|lia].
  - intros i m b Hm Hb Hnone.
    apply lookup_lt_Some in Hm as Hi.
    pose proof (Z.div_mod (Z.of_nat i) sw ltac:(lia)) as Hdm.
    pose proof (Z.mod_pos_bound (Z.of_nat i) sw ltac:(lia)) as Hmod.
    set (y := Z.of_nat i / sw) in *. set (j := Z.of_nat i mod sw) in *.
    assert (Hy : 0 ≤ y < h) by nia.
    destruct (Hbytes y j Hy Hmod) as (m' & Hm' & Hok).
    replace (Z.to_nat (y * sw + j)) with i in Hm' by lia.
    assert (m' = m) as -> by congruence.
    rewrite (Hok b Hb). unfold mask_bit_spec.
    destruct (Z.ltb_spec b 8); [|done].
    destruct (Z.ltb_spec (8 * j + (7 - b)) w); [|done].
    exfalso. apply (Hnone (8 * j + (7 - b)) y); [lia|done|].
    split; [zlia|zlia].
Qed.

(** A clear and an opaque pixel in a row of two. *)
Lemma createMask_correct_witness :
  1 ≤ 2 ≤ 256 ∧ 1 ≤ 1 ≤ 256
  ∧ Z.of_nat (length (map byte_of_Z [1; 2; 3; 0; 5; 6; 7; 255])) = 2 * 1 * 4
  ∧ getMaskScanWidth 2 = 4
  ∧ ∃ mask,
      createMask (map byte_of_Z [1; 2; 3; 0; 5; 6; 7; 255]) 2 1 1 = Ok mask
      ∧ Z.of_nat (length mask) = 4.
Proof.
  split; [lia|]. split; [lia|]. split; [reflexivity|].
  destruct (createMask_correct (map byte_of_Z [1; 2; 3; 0; 5; 6; 7; 255]) 2 1 1)
    as (Hsw & mask & Hrun & Hl & _); [lia|lia|reflexivity|].
  split; [exact Hsw|]. exists mask. split; [exact Hrun|exact Hl].
Defined.

(** ** [createDib]: the claims *)

(** With no row to copy the result is the zero-filled buffer. *)
Lemma createDib_no_rows (data : buffer) w h bpp :
  h * (w * bpp) ≤ 0 →
  createDib data w h bpp = Ok (replicate (length data) x00).
Proof.
  intros H. unfold createDib.
  rewrite bufferAlloc_Ok, Nat2Z.id by lia. ok_step.
  rewrite for_loop_unfold.
  by destruct (Z.ltb_spec 0 (h * (w * bpp))); [lia|].
Qed.

(** C6. On four-byte pixels [createDib] is an involution: transposing the
    transposed buffer gives back the input, byte for byte. *)
Theorem createDib_involution (data : buffer) w h :
  0 ≤ w → 0 ≤ h →
  Z.of_nat (length data) = w * h * 4 →
  ∃ dib, createDib data w h 4 = Ok dib ∧ createDib dib w h 4 = Ok data.
Proof.
  intros Hw Hh Hlen.
  destruct (decide (w = 0)) as [->|Hw0].
  { assert (data = []) as -> by (apply length_zero_iff_nil; lia).
    exists []. rewrite createDib_no_rows by lia. done. }
  destruct (createDib_rgba data w h) as (dib & Hrun & Hl & Hrows & _);
    [lia|lia|lia|].
  destruct (createDib_rgba dib w h) as (back & Hrun2 & Hl2 & Hrows2 & _);
    [lia|lia|lia|].
  exists dib. split; [done|]. rewrite Hrun2. f_equal.
  apply list_eq. intros i.
  destruct (decide (i < length data)%nat) as [Hi|Hi].
  - pose proof (Z.div_mod (Z.of_nat i) (w * 4) ltac:(lia)) as Hdm.
    pose proof (Z.mod_pos_bound (Z.of_nat i) (w * 4) ltac:(lia)) as Hmod.
    set (q := Z.of_nat i / (w * 4)) in *.
    set (c := Z.of_nat i mod (w * 4)) in *.
    assert (Hq : 0 ≤ q < h) by nia.
    pose proof (swap_rb_bounds c w ltac:(lia)) as Hsw.
    replace i with (Z.to_nat (q * (w * 4) + c)) by lia.
    rewrite Hrows2 by lia. rewrite Hrows by lia.
    rewrite swap_rb_involutive. f_equal. lia.
  - rewrite !lookup_ge_None_2; (done || lia).
Qed.

(** A column of two pixels. *)
Lemma createDib_involution_witness :
  0 ≤ 1 ∧ 0 ≤ 2
  ∧ Z.of_nat (length (map byte_of_Z [1; 2; 3; 4; 5; 6; 7; 8])) = 1 * 2 * 4
  ∧ ∃ dib,
      createDib (map byte_of_Z [1; 2; 3; 4; 5; 6; 7; 8]) 1 2 4 = Ok dib
      ∧ createDib dib 1 2 4 = Ok (map byte_of_Z [1; 2; 3; 4; 5; 6; 7; 8]).
Proof.
  split; [lia|]. split; [lia|]. split; [reflexivity|].
  apply (createDib_involution (map byte_of_Z [1; 2; 3; 4; 5; 6; 7; 8]) 1 2);
    [lia|lia|reflexivity].
Defined.

(** X9. On four-byte pixels [createDib] ends well and writes source row
    [r] to destination row [h - 1 - r], the first and third byte of each
    pixel exchanged, the second and the fourth byte in place. *)
Lemma createDib_rgba_rows (data : buffer) w h :
  1 ≤ w → 1 ≤ h →
  Z.of_nat (length data) = w * h * 4 →
  ∃ dib,
    createDib data w h 4 = Ok dib
    ∧ length dib = length data
    ∧ ∀ r k, 0 ≤ r < h → 0 ≤ k < w →
        let src := r * (w * 4) + 4 * k in
        let dst := (h - 1 - r) * (w * 4) + 4 * k in
        dib !! Z.to_nat dst = data !! Z.to_nat (src + 2)
        ∧ dib !! Z.to_nat (dst + 1) = data !! Z.to_nat (src + 1)
        ∧ dib !! Z.to_nat (dst + 2) = data !! Z.to_nat src
        ∧ dib !! Z.to_nat (dst + 3) = data !! Z.to_nat (src + 3).
Proof.
  intros Hw Hh Hlen.
  destruct (createDib_rgba data w h) as (dib & Hrun & Hl & Hrows & _);
    [lia|lia|lia|].
  exists dib. split; [done|]. split; [done|].
  intros r k Hr Hk src dst.
  assert (Hpix : ∀ j, 0 ≤ j < 4 →
            dib !! Z.to_nat (dst + j)
            = data !! Z.to_nat (src + (if j =? 0 then 2
                                       else if j =? 2 then 0 else j))).
  { intros j Hj. unfold dst, src.
    replace ((h - 1 - r) * (w * 4) + 4 * k + j)
      with ((h - 1 - r) * (w * 4) + (4 * k + j)) by lia.
    rewrite Hrows by lia. rewrite swap_rb_pixel by done.
    f_equal. f_equal. lia. }
  pose proof (Hpix 0 ltac:(lia)) as P0. pose proof (Hpix 1 ltac:(lia)) as P1.
  pose proof (Hpix 2 ltac:(lia)) as P2. pose proof (Hpix 3 ltac:(lia)) as P3.
  simpl in P0, P1, P2, P3. rewrite Z.add_0_r in P0, P2. done.
Qed.

(** ** The headers: their layout *)

Ltac write_ok :=
  rewrite write_int_Ok
    by (rewrite ?length_write_bytes, ?length_replicate; simpl; lia);
  ok_step.

(** The header is the three 16-bit fields, one after the other. *)
Lemma createHeader_Ok n :
  0 ≤ n ≤ 65535 →
  createHeader n = Ok (le_bytes 2 0 ++ le_bytes 2 1 ++ le_bytes 2 n).
Proof.
  intros Hn. unfold createHeader, constants.headerSize, writeUInt16LE.
  rewrite bufferAlloc_Ok by lia. ok_step.
  do 3 write_ok. f_equal.
Qed.

Lemma createDirectory_Ok (x : image) offset :
  0 ≤ dim_byte (width x) ≤ 255 → 0 ≤ dim_byte (height x) ≤ 255 →
  0 ≤ bpp x * 8 ≤ 65535 →
  0 ≤ directory_size x ≤ 4294967295 → 0 ≤ offset ≤ 4294967295 →
  createDirectory x offset = Ok (directory_layout x offset, directory_size x).
Proof.
  intros Hw Hh Hb Hs Ho.
  unfold createDirectory, constants.directorySize, writeUInt8, writeUInt16LE,
    writeUInt32LE.
  rewrite bufferAlloc_Ok by lia. ok_step.
  fold (dim_byte (width x)). fold (dim_byte (height x)).
  change constants.bitmapSize with 40. fold (directory_size x).
  do 8 write_ok. f_equal.
Qed.

Lemma createDirectory_Ok_inv (x : image) offset buf size :
  createDirectory x offset = Ok (buf, size) →
  0 ≤ dim_byte (width x) ≤ 255 ∧ 0 ≤ dim_byte (height x) ≤ 255
  ∧ 0 ≤ bpp x * 8 ≤ 65535
  ∧ 0 ≤ directory_size x ≤ 4294967295 ∧ 0 ≤ offset ≤ 4294967295
  ∧ buf = directory_layout x offset ∧ size = directory_size x.
Proof.
  intros H. pose proof H as H'.
  unfold createDirectory, writeUInt8, writeUInt16LE, writeUInt32LE in H'.
  fold (dim_byte (width x)) in H'. fold (dim_byte (height x)) in H'.
  change constants.bitmapSize with 40 in H'. fold (directory_size x) in H'.
  inv_bind H'.
  repeat match goal with
         | E : write_int _ _ _ _ _ _ = Ok _ |- _ =>
             apply write_int_Ok_inv in E as (? & _ & _ & _)
         end.
  rewrite createDirectory_Ok in H by lia.
  injection H as <- <-. repeat split; lia.
Qed.

Lemma createBitmap_Ok (x : image) compression :
  -2147483648 ≤ width x ≤ 2147483647 →
  -2147483648 ≤ height x * 2 ≤ 2147483647 →
  0 ≤ bpp x * 8 ≤ 65535 →
  0 ≤ compression ≤ 4294967295 →
  Z.of_nat (length (data x)) ≤ 4294967295 →
  createBitmap x compression = Ok (bitmap_layout x compression).
Proof.
  intros Hw Hh Hb Hc Hl.
  unfold createBitmap, constants.bitmapSize, writeUInt16LE, writeUInt32LE,
    writeInt32LE.
  rewrite bufferAlloc_Ok by lia. ok_step.
  do 11 write_ok. f_equal.
Qed.

Lemma createBitmap_Ok_inv (x : image) compression buf :
  createBitmap x compression = Ok buf →
  -2147483648 ≤ width x ≤ 2147483647
  ∧ -2147483648 ≤ height x * 2 ≤ 2147483647
  ∧ 0 ≤ bpp x * 8 ≤ 65535
  ∧ 0 ≤ compression ≤ 4294967295
  ∧ Z.of_nat (length (data x)) ≤ 4294967295
  ∧ buf = bitmap_layout x compression.
Proof.
  intros H. pose proof H as H'.
  unfold createBitmap, writeUInt16LE, writeUInt32LE, writeInt32LE in H'.
  inv_bind H'.
  repeat match goal with
         | E : write_int _ _ _ _ _ _ = Ok _ |- _ =>
             apply write_int_Ok_inv in E as (? & _ & _ & _)
         end.
  rewrite createBitmap_Ok in H by lia.
  injection H as <-. repeat split; lia.
Qed.

Lemma createHeader_Ok_inv n buf :
  createHeader n = Ok buf →
  0 ≤ n ≤ 65535 ∧ buf = le_bytes 2 0 ++ le_bytes 2 1 ++ le_bytes 2 n.
Proof.
  intros H. pose proof H as H'. unfold createHeader, writeUInt16LE in H'.
  inv_bind H'.
  repeat match goal with
         | E : write_int _ _ _ _ _ _ = Ok _ |- _ =>
             apply write_int_Ok_inv in E as (? & _ & _ & _)
         end.
  rewrite createHeader_Ok in H by lia. by injection H as <-.
Qed.

Lemma length_directory_layout x offset : length (directory_layout x offset) = 16%nat.
Proof. done. Qed.

Lemma length_bitmap_layout x compression : length (bitmap_layout x compression) = 40%nat.
Proof. done. Qed.

(** Decoding gives back what was encoded, modulo the size of the field. *)
Lemma le_value_le_bytes size : ∀ v, le_value (le_bytes size v) = v mod 256 ^ Z.of_nat size.
Proof.
  induction size as [|n IH]; intros v.
  - simpl. by rewrite Z.mod_1_r.
  - cbn [le_bytes le_value]. rewrite IH, Z_of_byte_of_Z.
    rewrite Nat2Z.inj_succ, Z.pow_succ_r by lia.
    rewrite Z.mod_mod by lia.
    rewrite Z.rem_mul_r by lia. done.
Qed.

Lemma le_value_unsigned size v :
  0 ≤ v < 256 ^ Z.of_nat size → le_value (le_bytes size v) = v.
Proof. intros H. rewrite le_value_le_bytes. by apply Z.mod_small. Qed.

Lemma le_value_signed32 v :
  -2147483648 ≤ v ≤ 2147483647 → ToInt32 (le_value (le_bytes 4 v)) = v.
Proof.
  intros H. rewrite le_value_le_bytes. change (256 ^ Z.of_nat 4) with 4294967296.
  unfold ToInt32. zlia.
Qed.

(** The fields of a directory entry, read back. *)
Lemma directory_fields (x : image) offset :
  0 ≤ dim_byte (width x) ≤ 255 → 0 ≤ dim_byte (height x) ≤ 255 →
  0 ≤ bpp x * 8 ≤ 65535 →
  0 ≤ directory_size x ≤ 4294967295 → 0 ≤ offset ≤ 4294967295 →
  let buf := directory_layout x offset in
  field buf 0 1 = dim_byte (width x) ∧ field buf 1 1 = dim_byte (height x)
  ∧ field buf 2 1 = 0 ∧ field buf 3 1 = 0 ∧ field buf 4 2 = 1
  ∧ field buf 6 2 = bpp x * 8
  ∧ field buf 8 4 = directory_size x ∧ field buf 12 4 = offset.
Proof.
  intros Hw Hh Hb Hs Ho buf.
  change (field buf 0 1) with (le_value (le_bytes 1 (dim_byte (width x)))).
  change (field buf 1 1) with (le_value (le_bytes 1 (dim_byte (height x)))).
  change (field buf 2 1) with (le_value (le_bytes 1 0)).
  change (field buf 3 1) with (le_value (le_bytes 1 0)).
  change (field buf 4 2) with (le_value (le_bytes 2 1)).
  change (field buf 6 2) with (le_value (le_bytes 2 (bpp x * 8))).
  change (field buf 8 4) with (le_value (le_bytes 4 (directory_size x))).
  change (field buf 12 4) with (le_value (le_bytes 4 offset)).
  rewrite !le_value_unsigned; [done|simpl; lia..].
Qed.

(** The size an entry records is never negative for dimensions of the
    format. *)
Lemma directory_size_nonneg (x : image) :
  0 ≤ width x ≤ 256 → 0 ≤ height x ≤ 256 → 0 ≤ directory_size x.
Proof.
  intros Hw Hh. unfold directory_size.
  destruct (bpp x =? 4); [|lia].
  rewrite getMaskScanWidth_eq by lia.
  assert (0 ≤ (width x + 31) / 32 * 4) by zlia. nia.
Qed.

(** C7. For every image whose entry can be written (dimensions up to 256,
    depth, size and offset within their fields) [createDirectory] writes
    the entry, and its width and height bytes are 0 for a dimension of 256
    and the dimension itself for 1..255. *)
Theorem createDirectory_dimensions (x : image) offset :
  0 ≤ width x ≤ 256 → 0 ≤ height x ≤ 256 →
  0 ≤ bpp x ≤ 8191 →
  directory_size x ≤ 4294967295 → 0 ≤ offset ≤ 4294967295 →
  ∃ buf size,
    createDirectory x offset = Ok (buf, size)
    ∧ (width x = 256 → field buf 0 1 = 0)
    ∧ (1 ≤ width x ≤ 255 → field buf 0 1 = width x)
    ∧ (height x = 256 → field buf 1 1 = 0)
    ∧ (1 ≤ height x ≤ 255 → field buf 1 1 = height x).
Proof.
  intros Hw Hh Hb Hs Ho.
  pose proof (directory_size_nonneg x Hw Hh) as Hs0.
  assert (Hdw : 0 ≤ dim_byte (width x) ≤ 255)
    by (unfold dim_byte; destruct (Z.eqb_spec (width x) 256); lia).
  assert (Hdh : 0 ≤ dim_byte (height x) ≤ 255)
    by (unfold dim_byte; destruct (Z.eqb_spec (height x) 256); lia).
  assert (Hb8 : 0 ≤ bpp x * 8 ≤ 65535) by lia.
  exists (directory_layout x offset), (directory_size x).
  split; [apply createDirectory_Ok; lia|].
  destruct (directory_fields x offset Hdw Hdh Hb8 ltac:(lia) Ho)
    as (Fw & Fh & _).
  rewrite Fw, Fh. unfold dim_byte.
  repeat split; intros Hd.
  - by rewrite Hd.
  - by destruct (Z.eqb_spec (width x) 256); [lia|].
  - by rewrite Hd.
  - by destruct (Z.eqb_spec (height x) 256); [lia|].
Qed.

(** An entry of 256 by 48 pixels and one of 48 by 256: the byte of the
    dimension of 256 is 0, the other is 48. *)
Lemma createDirectory_dimensions_witness :
  (∃ buf size,
     createDirectory (Image 256 48 3 []) 22 = Ok (buf, size)
     ∧ field buf 0 1 = 0 ∧ field buf 1 1 = 48)
  ∧ (∃ buf size,
       createDirectory (Image 48 256 4 []) 22 = Ok (buf, size)
       ∧ field buf 0 1 = 48 ∧ field buf 1 1 = 0).
Proof.
  split.
  - destruct (createDirectory_dimensions (Image 256 48 3 []) 22)
      as (buf & size & Hrun & H256 & _ & _ & Hlit);
      [simpl; lia|simpl; lia|simpl; lia|vm_compute; discriminate|lia|].
    exists buf, size. split; [exact Hrun|].
    split; [apply H256; reflexivity|apply Hlit; simpl; lia].
  - destruct (createDirectory_dimensions (Image 48 256 4 []) 22)
      as (buf & size & Hrun & _ & Hlit & H256 & _);
      [simpl; lia|simpl; lia|simpl; lia|vm_compute; discriminate|lia|].
    exists buf, size. split; [exact Hrun|].
    split; [apply Hlit; simpl; lia|apply H256; reflexivity].
Defined.

(** [createDib] keeps the length of its input. *)
Lemma for_loop_preserves {St : Type} (P : St → Prop) (test : St → bool)
    (body : St → outcome St) :
  (∀ s s', P s → test s = true → body s = Ok s' → P s') →
  ∀ fuel s s', P s → for_loop fuel test body s = Ok s' → P s'.
Proof.
  intros Hstep. induction fuel as [|fuel IH]; intros s s' HP H;
    rewrite for_loop_unfold in H; destruct (test s) eqn:Ht;
    try discriminate; try (by injection H as <-).
  apply bind_Ok in H as (s1 & Hb & H). eauto.
Qed.

Lemma createDib_pixel_length (data buf : buffer) end_ row col buf' :
  createDib_pixel data end_ row buf col = Ok buf' → length buf' = length buf.
Proof.
  unfold createDib_pixel, writeUInt8. intros H. inv_bind H.
  injection H as <-.
  repeat match goal with
         | E : write_int _ _ _ _ _ _ = Ok _ |- _ =>
             apply write_int_length in E
         end.
  congruence.
Qed.

Lemma createDib_length (data : buffer) w h bpp dib :
  createDib data w h bpp = Ok dib → length dib = length data.
Proof.
  unfold createDib. intros H.
  apply bind_Ok in H as (buf0 & Halloc & H).
  apply bind_Ok in H as ([buf row] & Hloop & H). injection H as <-.
  unfold bufferAlloc in Halloc. destruct (_ <? 0); [done|].
  injection Halloc as <-.
  apply (for_loop_preserves (λ s : buffer * Z, length s.1 = length data))
    in Hloop; [done| |simpl; by rewrite length_replicate, Nat2Z.id].
  intros [b1 r1] [b2 r2] HP _ Hbody; simpl in *.
  apply bind_Ok in Hbody as ([b3 c3] & Hinner & Hbody).
  injection Hbody as <- <-.
  apply (for_loop_preserves (λ s : buffer * Z, length s.1 = length data))
    in Hinner; [done| |done].
  intros [b4 c4] [b5 c5] HP' _ Hpix; simpl in *.
  apply bind_Ok in Hpix as (b6 & Hpix & Hret). injection Hret as <- <-.
  apply createDib_pixel_length in Hpix. congruence.
Qed.

Lemma createMask_row_length (data buf : buffer) w sw t srcPos y buf' srcPos' :
  createMask_row data w sw t buf srcPos y = Ok (buf', srcPos') →
  length buf' = length buf.
Proof.
  unfold createMask_row, writeUInt8. intros H.
  apply bind_Ok in H as ([st x] & Hloop & H).
  apply (for_loop_preserves
           (λ s : mask_state * Z, length (ms_buf s.1) = length buf))
    in Hloop; [| |done].
  - simpl in Hloop. destruct (negb _).
    + apply bind_Ok in H as ([[mask src] x'] & _ & H).
      apply bind_Ok in H as (b & Hw & H). injection H as <- <-.
      apply write_int_length in Hw. congruence.
    + by injection H as <- <-.
  - intros [s1 x1] [s2 x2] HP _ Hbody; simpl in *.
    apply bind_Ok in Hbody as (m & _ & Hbody).
    apply bind_Ok in Hbody as (b & Hw & Hbody). injection Hbody as <- <-.
    apply write_int_length in Hw. simpl. congruence.
Qed.

(** The mask has [scanWidth * height] bytes whenever it is built. *)
Lemma createMask_length (data : buffer) w h t mask :
  createMask data w h t = Ok mask →
  Z.of_nat (length mask) = getMaskScanWidth w * h.
Proof.
  unfold createMask. intros H.
  apply bind_Ok in H as (buf0 & Halloc & H).
  apply bind_Ok in H as ([[buf src] y] & Hloop & H). injection H as <-.
  unfold bufferAlloc in Halloc.
  destruct (Z.ltb_spec (getMaskScanWidth w * h) 0); [done|].
  injection Halloc as <-.
  apply (for_loop_preserves
           (λ s : buffer * Z * Z,
              Z.of_nat (length s.1.1) = getMaskScanWidth w * h))
    in Hloop; [done| |simpl; rewrite length_replicate; lia].
  intros [[b1 s1] y1] [[b2 s2] y2] HP _ Hbody; simpl in *.
  apply bind_Ok in Hbody as ([b3 s3] & Hrow & Hbody).
  injection Hbody as <- <- <-.
  apply createMask_row_length in Hrow. lia.
Qed.

(** C8. Whether the pixels have three or four bytes, the bitmap info
    header has forty bytes and records: header size 40, the width, twice
    the height, one plane, [bpp * 8] bits, the compression constant, the
    length of the (transposed) pixel array, and four zero fields. *)
Theorem createBitmap_fields (x : image) compression :
  1 ≤ width x ≤ 256 → 1 ≤ height x ≤ 256 →
  bpp x = 3 ∨ bpp x = 4 →
  0 ≤ compression ≤ 4294967295 →
  Z.of_nat (length (data x)) ≤ 4294967295 →
  ∃ buf,
    createBitmap x compression = Ok buf
    ∧ length buf = 40%nat
    ∧ field buf 0 4 = 40
    ∧ field_i32 buf 4 = width x
    ∧ field_i32 buf 8 = 2 * height x
    ∧ field buf 12 2 = 1
    ∧ field buf 14 2 = bpp x * 8
    ∧ field buf 16 4 = compression
    ∧ field buf 20 4 = Z.of_nat (length (data x))
    ∧ (∀ dib, createDib (data x) (width x) (height x) (bpp x) = Ok dib →
         field buf 20 4 = Z.of_nat (length dib))
    ∧ field_i32 buf 24 = 0 ∧ field_i32 buf 28 = 0
    ∧ field buf 32 4 = 0 ∧ field buf 36 4 = 0.
Proof.
  intros Hw Hh Hb Hc Hl. exists (bitmap_layout x compression).
  split; [apply createBitmap_Ok; lia|]. split; [done|].
  set (buf := bitmap_layout x compression). unfold field_i32.
  change (field buf 0 4) with (le_value (le_bytes 4 40)).
  change (field buf 4 4) with (le_value (le_bytes 4 (width x))).
  change (field buf 8 4) with (le_value (le_bytes 4 (height x * 2))).
  change (field buf 12 2) with (le_value (le_bytes 2 1)).
  change (field buf 14 2) with (le_value (le_bytes 2 (bpp x * 8))).
  change (field buf 16 4) with (le_value (le_bytes 4 compression)).
  change (field buf 20 4)
    with (le_value (le_bytes 4 (Z.of_nat (length (data x))))).
  change (field buf 24 4) with (le_value (le_bytes 4 0)).
  change (field buf 28 4) with (le_value (le_bytes 4 0)).
  change (field buf 32 4) with (le_value (le_bytes 4 0)).
  change (field buf 36 4) with (le_value (le_bytes 4 0)).
  rewrite !le_value_signed32 by lia.
  rewrite !le_value_unsigned by (simpl; lia).
  repeat split; try lia.
  intros dib Hdib. apply createDib_length in Hdib. lia.
Qed.

(** A 24-bit image of 2 by 3 pixels: the header says 6 rows. *)
Lemma createBitmap_fields_witness :
  1 ≤ 2 ≤ 256 ∧ 1 ≤ 3 ≤ 256 ∧ (3 = 3 ∨ 3 = 4) ∧ 0 ≤ 0 ≤ 4294967295
  ∧ ∃ buf,
      createBitmap (Image 2 3 3 (replicate 18 x00)) 0 = Ok buf
      ∧ field_i32 buf 8 = 6 ∧ field buf 14 2 = 24 ∧ field buf 20 4 = 18.
Proof.
  split; [lia|]. split; [lia|]. split; [by left|]. split; [lia|].
  destruct (createBitmap_fields (Image 2 3 3 (replicate 18 x00)) 0)
    as (buf & Hrun & _ & _ & _ & Hh & _ & Hb & _ & Hs & _);
    [simpl; lia|simpl; lia|by left|lia|simpl; lia|].
  exists buf. split; [exact Hrun|]. split; [exact Hh|]. split; [exact Hb|exact Hs].
Defined.

(** ** [generateIco]: the assembly *)

Lemma Buffer_concat_exact (arr : list buffer) :
  Buffer_concat arr (Z.of_nat (length (concat arr))) = Ok (concat arr).
Proof.
  unfold Buffer_concat. destruct (Z.ltb_spec (Z.of_nat (length (concat arr))) 0);
    [lia|].
  rewrite Nat2Z.id. by rewrite take_app_length.
Qed.

Lemma push_directory_loop (decoded : list image) :
  ∀ arr len offset arr' len' offset',
    for_of decoded push_directory (arr, len, offset) = Ok (arr', len', offset') →
    ∃ dirs,
      directory_run offset decoded dirs
      ∧ arr' = arr ++ dirs
      ∧ len' = len + Z.of_nat (length (concat dirs)).
Proof.
  induction decoded as [|x rest IH]; intros arr len offset arr' len' offset' H.
  - injection H as <- <- <-. exists []. split; [constructor|].
    split; [by rewrite app_nil_r|simpl; lia].
  - cbn [for_of] in H. apply bind_Ok in H as ([[arr1 len1] off1] & Hx & H).
    unfold push_directory in Hx.
    apply bind_Ok in Hx as ([buf size] & Hdir & Hx). injection Hx as <- <- <-.
    apply IH in H as (dirs & Hrun & -> & ->).
    exists (buf :: dirs). split; [by econstructor|].
    split; [by rewrite <- app_assoc|].
    simpl. rewrite length_app. lia.
Qed.

Lemma push_block_loop (decoded : list image) :
  ∀ arr len arr' len',
    for_of decoded push_block (arr, len) = Ok (arr', len') →
    ∃ blocks,
      Forall2 is_block decoded blocks
      ∧ arr' = arr ++ concat (map (λ b, [b.1.1; b.1.2; b.2]) blocks)
      ∧ len' = len + Z.of_nat (length (concat (map block_bytes blocks))).
Proof.
  induction decoded as [|x rest IH]; intros arr len arr' len' H.
  - injection H as <- <-. exists []. split; [constructor|].
    split; [by rewrite app_nil_r|simpl; lia].
  - cbn [for_of] in H. apply bind_Ok in H as ([arr1 len1] & Hx & H).
    unfold push_block in Hx.
    apply bind_Ok in Hx as (header & Hh & Hx).
    apply bind_Ok in Hx as (dib & Hd & Hx).
    apply bind_Ok in Hx as (mask & Hm & Hx). injection Hx as <- <-.
    apply IH in H as (blocks & Hall & -> & ->).
    exists ((header, dib, mask) :: blocks). split; [by constructor|].
    split; [by rewrite <- app_assoc|].
    cbn [map concat]. rewrite length_app.
    change (block_bytes (header, dib, mask)) with (header ++ dib ++ mask).
    rewrite !length_app. lia.
Qed.

Lemma concat_block_triples (blocks : list (buffer * buffer * buffer)) :
  concat (concat (map (λ b, [b.1.1; b.1.2; b.2]) blocks))
  = concat (map block_bytes blocks).
Proof.
  induction blocks as [|b blocks IH]; [done|].
  simpl. rewrite IH. unfold block_bytes. by rewrite <- !app_assoc.
Qed.

(** What [generateIco] returns when it returns: the header, the entries
    of the directory, the blocks, each made by its function, in the order
    of the images. *)
Lemma generateIco_decoded_inv (decoded : list image) out :
  generateIco_decoded decoded = Ok out →
  ∃ header dirs blocks,
    createHeader (Z.of_nat (length decoded)) = Ok header
    ∧ directory_run (6 + 16 * Z.of_nat (length decoded)) decoded dirs
    ∧ Forall2 is_block decoded blocks
    ∧ out = header ++ concat dirs ++ concat (map block_bytes blocks).
Proof.
  unfold generateIco_decoded. intros H.
  apply bind_Ok in H as (header & Hh & H).
  apply bind_Ok in H as ([[arr1 len1] off1] & H1 & H).
  apply bind_Ok in H as ([arr2 len2] & H2 & H).
  apply push_directory_loop in H1 as (dirs & Hrun & -> & ->).
  apply push_block_loop in H2 as (blocks & Hall & -> & ->).
  exists header, dirs, blocks. split; [done|]. split; [done|]. split; [done|].
  match type of H with
  | Buffer_concat ?arr ?len = _ =>
      replace len with (Z.of_nat (length (concat arr))) in H
  end.
  - rewrite Buffer_concat_exact in H. injection H as <-.
    by rewrite !concat_app, concat_block_triples.
  - rewrite !concat_app, concat_block_triples, !length_app. simpl.
    rewrite ?app_nil_r. lia.
Qed.

Lemma directory_run_entries offset decoded dirs :
  directory_run offset decoded dirs →
  length dirs = length decoded
  ∧ Forall (λ d : buffer, length d = 16%nat) dirs
  ∧ Z.of_nat (length (concat dirs)) = 16 * Z.of_nat (length decoded).
Proof.
  induction 1 as [|offset x rest buf size dirs Hdir _ (IH1 & IH2 & IH3)].
  - by repeat split.
  - apply createDirectory_Ok_inv in Hdir as (_ & _ & _ & _ & _ & -> & _).
    split; [simpl; by rewrite IH1|]. split; [by constructor|].
    cbn [concat]. rewrite length_app, length_directory_layout.
    cbn [length]. lia.
Qed.

Lemma is_block_header x b : is_block x b → length b.1.1 = 40%nat.
Proof.
  intros (Hh & _). apply createBitmap_Ok_inv in Hh as (_ & _ & _ & _ & _ & ->).
  apply length_bitmap_layout.
Qed.

Lemma blocks_length decoded (blocks : list (buffer * buffer * buffer)) :
  Forall2 is_block decoded blocks →
  length blocks = length decoded
  ∧ Forall (λ b, length b.1.1 = 40%nat) blocks
  ∧ Z.of_nat (length (concat (map block_bytes blocks)))
    = sumZ (map (λ b, 40 + Z.of_nat (length b.1.2) + Z.of_nat (length b.2))
              blocks).
Proof.
  induction 1 as [|x b decoded blocks Hb _ (IH1 & IH2 & IH3)].
  - by repeat split.
  - pose proof (is_block_header x b Hb) as Hh.
    split; [simpl; by rewrite IH1|]. split; [by constructor|].
    cbn [map concat sumZ foldr]. fold (sumZ (map (λ b, 40 + Z.of_nat (length b.1.2)
      + Z.of_nat (length b.2)) blocks)).
    rewrite <- IH3. unfold block_bytes at 1. rewrite !length_app. lia.
Qed.

(** C1. When [generateIco] accepts [N] decoded images, what it returns is
    the 6-byte header, then the [N] directory entries of 16 bytes in the
    order of the images, then the [N] blocks in that order; its length is
    [6 + 16 * N] plus, for each image, 40 and the lengths of its pixel
    array and mask. With no image it is the header alone. *)
Theorem generateIco_layout (decoded : list image) out :
  generateIco_decoded decoded = Ok out →
  (∃ header dirs blocks,
     createHeader (Z.of_nat (length decoded)) = Ok header
     ∧ length header = 6%nat
     ∧ directory_run (6 + 16 * Z.of_nat (length decoded)) decoded dirs
     ∧ length dirs = length decoded
     ∧ Forall (λ d : buffer, length d = 16%nat) dirs
     ∧ Forall2 is_block decoded blocks
     ∧ Forall (λ b, length b.1.1 = 40%nat) blocks
     ∧ out = header ++ concat dirs ++ concat (map block_bytes blocks)
     ∧ Z.of_nat (length out)
       = 6 + 16 * Z.of_nat (length decoded)
         + sumZ (map (λ b, 40 + Z.of_nat (length b.1.2)
                           + Z.of_nat (length b.2)) blocks))
  ∧ (decoded = [] → out = [x00; x00; x01; x00; x00; x00]).
Proof.
  intros H. split.
  - apply generateIco_decoded_inv in H as (header & dirs & blocks & Hh & Hd & Hb & ->).
    pose proof Hh as Hh'. apply createHeader_Ok_inv in Hh' as [_ Hhl].
    assert (Hl6 : length header = 6%nat) by (by subst header).
    destruct (directory_run_entries _ _ _ Hd) as (Hd1 & Hd2 & Hd3).
    destruct (blocks_length _ _ Hb) as (Hb1 & Hb2 & Hb3).
    exists header, dirs, blocks. repeat (split; [done|]).
    rewrite !length_app. lia.
  - intros ->. by injection H as <-.
Qed.

(** One pixel of four bytes. *)
Lemma generateIco_layout_witness :
  ∃ out,
    generateIco_decoded [Image 1 1 4 (map byte_of_Z [9; 8; 7; 0])] = Ok out
    ∧ ∃ header dirs blocks,
        length header = 6%nat ∧ length dirs = 1%nat
        ∧ Forall (λ d : buffer, length d = 16%nat) dirs
        ∧ Forall (λ b : buffer * buffer * buffer, length b.1.1 = 40%nat) blocks
        ∧ out = header ++ concat dirs ++ concat (map block_bytes blocks).
Proof.
  eexists. split; [vm_compute; reflexivity|].
  match goal with
  | |- ∃ header dirs blocks, _ ∧ _ ∧ _ ∧ _ ∧ ?o = _ =>
      destruct (generateIco_layout
                  [Image 1 1 4 (map byte_of_Z [9; 8; 7; 0])] o eq_refl)
        as [(header & dirs & blocks & _ & Hh & _ & Hd & Hd16 & _ & Hb40 & Hout & _) _]
  end.
  exists header, dirs, blocks.
  split; [exact Hh|]. split; [exact Hd|]. split; [exact Hd16|].
  split; [exact Hb40|exact Hout].
Defined.

(** *** Offsets *)

Lemma sumZ_app l1 l2 : sumZ (l1 ++ l2) = sumZ l1 + sumZ l2.
Proof. induction l1 as [|a l1 IH]; simpl; [done|]. unfold sumZ in *. simpl. lia. Qed.

(** Entry [i] of a run is the layout of image [i] at the offset reached
    after the sizes of the images before it. *)
Lemma directory_run_lookup offset decoded dirs :
  directory_run offset decoded dirs →
  ∀ i x, decoded !! i = Some x →
    let off := offset + sumZ (map directory_size (take i decoded)) in
    dirs !! i = Some (directory_layout x off)
    ∧ createDirectory x off = Ok (directory_layout x off, directory_size x).
Proof.
  induction 1 as [|offset x rest buf size dirs Hdir _ IH]; intros i y Hi.
  - done.
  - pose proof Hdir as Hdir'.
    apply createDirectory_Ok_inv in Hdir' as (_ & _ & _ & _ & _ & -> & ->).
    destruct i as [|i]; simpl in Hi.
    + injection Hi as <-. simpl. unfold sumZ; simpl. rewrite Z.add_0_r. done.
    + destruct (IH i y Hi) as [H1 H2]. cbn [take map lookup].
      replace (offset + sumZ (directory_size x :: map directory_size (take i rest)))
        with (offset + directory_size x + sumZ (map directory_size (take i rest)))
        by (unfold sumZ; simpl; lia).
      done.
Qed.

(** The size an entry records is the length of the block that is built. *)
Lemma is_block_length x b :
  is_block x b → Z.of_nat (length (block_bytes b)) = directory_size x.
Proof.
  intros Hb. pose proof (is_block_header x b Hb) as Hh.
  destruct Hb as (_ & Hd & Hm).
  apply createDib_length in Hd.
  unfold block_bytes, directory_size. rewrite !length_app, Hh, Hd.
  destruct (bpp x =? 4).
  - apply createMask_length in Hm. lia.
  - injection Hm as <-. simpl. lia.
Qed.

Lemma blocks_before decoded (blocks : list (buffer * buffer * buffer)) :
  Forall2 is_block decoded blocks →
  ∀ i, sumZ (map directory_size (take i decoded))
       = Z.of_nat (length (concat (map block_bytes (take i blocks)))).
Proof.
  induction 1 as [|x b decoded blocks Hb _ IH]; intros i.
  - by rewrite !take_nil.
  - destruct i as [|i]; [done|].
    cbn [take map concat]. rewrite length_app, <- (is_block_length x b Hb).
    unfold sumZ in *. simpl. rewrite IH. lia.
Qed.

(** Element [i] of the concatenation of buffers. *)
Lemma concat_lookup_block {A} (l : list (list A)) : ∀ i b rest,
  l !! i = Some b →
  take (length b) (drop (length (concat (take i l))) (concat l ++ rest)) = b.
Proof.
  induction l as [|a l IH]; intros i b rest Hi; [done|].
  destruct i as [|i]; simpl in Hi.
  - injection Hi as ->. cbn [take concat length].
    rewrite <- app_assoc, drop_0. by rewrite take_app_length.
  - cbn [take concat]. rewrite length_app, <- app_assoc.
    rewrite drop_app_add. by apply IH.
Qed.

Lemma concat_take_uniform {A} (l : list (list A)) n :
  Forall (λ d, length d = n) l →
  ∀ i, (i ≤ length l)%nat → length (concat (take i l)) = (n * i)%nat.
Proof.
  induction 1 as [|a l Ha _ IH]; intros i Hi.
  - rewrite take_nil. simpl in *. lia.
  - destruct i as [|i]; [simpl; lia|].
    cbn [take concat]. rewrite length_app, Ha, IH by (simpl in Hi; lia). lia.
Qed.

(** Entry [i] and block [i] of the file belong to image [i]: the entry is
    the layout of that image at the offset reached after the blocks before
    it, and the bytes from that offset on are the block of that image. *)
Lemma generateIco_entry (decoded : list image) out :
  generateIco_decoded decoded = Ok out →
  ∀ i x, decoded !! i = Some x →
    let off := 6 + 16 * Z.of_nat (length decoded)
               + sumZ (map directory_size (take i decoded)) in
    createDirectory x off = Ok (entry out i, directory_size x)
    ∧ sizeInBytes (entry out i) = directory_size x
    ∧ fileOffset (entry out i) = off
    ∧ ∃ b, is_block x b
           ∧ take (Z.to_nat (directory_size x)) (drop (Z.to_nat off) out)
             = block_bytes b.
Proof.
  intros H i x Hi off.
  apply generateIco_decoded_inv in H as (header & dirs & blocks & Hh & Hd & Hb & ->).
  apply createHeader_Ok_inv in Hh as [_ Hhl].
  assert (Hl6 : length header = 6%nat) by (by subst header).
  destruct (directory_run_entries _ _ _ Hd) as (Hd1 & Hd2 & Hd3).
  destruct (directory_run_lookup _ _ _ Hd i x Hi) as [Hdi Hrun].
  fold off in Hdi, Hrun.
  apply lookup_lt_Some in Hi as Hlt.
  assert (Hentry : entry (header ++ concat dirs ++ concat (map block_bytes blocks)) i
                   = directory_layout x off).
  { unfold entry. replace (6 + 16 * i)%nat with (length header + 16 * i)%nat by lia.
    rewrite drop_app_add.
    rewrite <- (concat_take_uniform dirs 16 Hd2 i) by lia.
    change 16%nat with (length (directory_layout x off)).
    by apply concat_lookup_block. }
  rewrite Hentry. split; [done|].
  pose proof Hrun as Hrun'.
  apply createDirectory_Ok_inv in Hrun' as (Rw & Rh & Rb & Rs & Ro & _ & _).
  destruct (directory_fields x off Rw Rh Rb Rs Ro) as (_ & _ & _ & _ & _ & _ & Fs & Fo).
  split; [exact Fs|]. split; [exact Fo|].
  destruct (Forall2_lookup_l _ _ _ _ _ Hb Hi) as (b & Hbi & Hblock).
  exists b. split; [done|].
  pose proof (blocks_before _ _ Hb i) as Hbefore.
  pose proof (is_block_length x b Hblock) as Hbl.
  replace (Z.to_nat off)
    with (length header
          + (length (concat dirs)
             + length (concat (take i (map block_bytes blocks)))))%nat.
  2: { rewrite <- fmap_take.
       change (block_bytes <$> take i blocks)
         with (map block_bytes (take i blocks)).
       unfold off. lia. }
  rewrite drop_app_add, drop_app_add.
  replace (Z.to_nat (directory_size x)) with (length (block_bytes b)) by lia.
  rewrite <- (app_nil_r (concat (map block_bytes blocks))).
  apply concat_lookup_block. by rewrite list_lookup_fmap, Hbi.
Qed.

(** C2. In the file of [N] images, the file offset of entry 0 is
    [6 + 16 * N]; the file offset of each later entry is that of the entry
    before it plus the size that entry records; and entry [i] and the
    bytes it points at are the entry and the block of image [i]. *)
Theorem generateIco_offsets (decoded : list image) out :
  generateIco_decoded decoded = Ok out →
  (∀ x, decoded !! 0%nat = Some x →
     fileOffset (entry out 0) = 6 + 16 * Z.of_nat (length decoded))
  ∧ (∀ i, (S i < length decoded)%nat →
       fileOffset (entry out (S i))
       = fileOffset (entry out i) + sizeInBytes (entry out i))
  ∧ (∀ i x, decoded !! i = Some x →
       createDirectory x (fileOffset (entry out i))
       = Ok (entry out i, sizeInBytes (entry out i))
       ∧ ∃ b, is_block x b
              ∧ take (Z.to_nat (sizeInBytes (entry out i)))
                  (drop (Z.to_nat (fileOffset (entry out i))) out)
                = block_bytes b).
Proof.
  intros H. pose proof (generateIco_entry decoded out H) as He.
  split; [|split].
  - intros x Hx. destruct (He 0%nat x Hx) as (_ & _ & Ho & _).
    rewrite Ho, take_0. unfold sumZ; simpl. lia.
  - intros i Hi.
    destruct (lookup_lt_is_Some_2 decoded i) as [x Hx]; [lia|].
    destruct (lookup_lt_is_Some_2 decoded (S i)) as [y Hy]; [lia|].
    destruct (He i x Hx) as (_ & Hs & Ho & _).
    destruct (He (S i) y Hy) as (_ & _ & Ho' & _).
    rewrite Ho', Ho, Hs.
    rewrite (take_S_r decoded i x Hx), map_app, sumZ_app.
    unfold sumZ at 2; simpl. lia.
  - intros i x Hx. destruct (He i x Hx) as (Hc & Hs & Ho & Hb).
    by rewrite Hs, Ho.
Qed.

(** Two images of one pixel each. *)
Lemma generateIco_offsets_witness :
  ∃ out,
    generateIco_decoded
      [Image 1 1 4 (map byte_of_Z [9; 8; 7; 0]);
       Image 1 1 4 (map byte_of_Z [1; 2; 3; 255])] = Ok out
    ∧ fileOffset (entry out 0) = 6 + 16 * Z.of_nat 2
    ∧ fileOffset (entry out 1)
      = fileOffset (entry out 0) + sizeInBytes (entry out 0).
Proof.
  eexists. split; [vm_compute; reflexivity|].
  match goal with
  | |- fileOffset (entry ?o _) = _ ∧ _ =>
      destruct (generateIco_offsets
                  [Image 1 1 4 (map byte_of_Z [9; 8; 7; 0]);
                   Image 1 1 4 (map byte_of_Z [1; 2; 3; 255])] o eq_refl)
        as (H0 & Hnext & _)
  end.
  split; [exact (H0 _ eq_refl)|].
  apply (Hnext 0%nat). simpl. lia.
Defined.

(** ** Failures: the range error and nothing else *)

Lemma settles_Ok {A} (a : A) : settles (Ok a).
Proof. left. eauto. Qed.

Lemma settles_bind {A B} (m : outcome A) (f : A → outcome B) :
  settles m → (∀ a, m = Ok a → settles (f a)) → settles (m ≫= f).
Proof.
  intros [[a ->]| ->] Hf; [by apply Hf|by right].
Qed.

Lemma settles_read (buf : buffer) offset : settles (readUInt8 buf offset).
Proof. apply readUInt8_result. Qed.

Lemma settles_write size min max (buf : buffer) value offset :
  settles (write_int size min max buf value offset).
Proof. apply write_int_result. Qed.

Ltac settle :=
  repeat first
    [ apply settles_Ok
    | apply settles_read
    | apply settles_write
    | apply settles_bind; [|intros ? _] ].

(** A loop with a measure that every round lowers ends, and ends well
    when its rounds do. *)
Lemma for_loop_settles {St : Type} (P : St → Prop) (measure : St → nat)
    (test : St → bool) (body : St → outcome St) :
  (∀ s, P s → test s = true →
     (0 < measure s)%nat ∧ settles (body s)
     ∧ ∀ s', body s = Ok s' → P s' ∧ (measure s' < measure s)%nat) →
  ∀ fuel s, P s → (measure s ≤ fuel)%nat → settles (for_loop fuel test body s).
Proof.
  intros Hstep. induction fuel as [|fuel IH]; intros s HP Hm;
    rewrite for_loop_unfold; destruct (test s) eqn:Ht; try apply settles_Ok;
    destruct (Hstep s HP Ht) as (Hpos & Hbody & Hnext); [lia|].
  apply settles_bind; [done|]. intros s' Hs'.
  destruct (Hnext s' Hs') as [HP' Hlt]. apply IH; [done|lia].
Qed.

Lemma for_of_settles {St A : Type} (l : list A) (body : St → A → outcome St) :
  (∀ s x, x ∈ l → settles (body s x)) → ∀ s, settles (for_of l body s).
Proof.
  induction l as [|x l IH]; intros Hbody s; [apply settles_Ok|].
  cbn [for_of]. apply settles_bind; [apply Hbody; left|].
  intros s' _. apply IH. intros s0 y Hy. apply Hbody. by right.
Qed.

Lemma createDib_pixel_settles (data buf : buffer) end_ row col :
  settles (createDib_pixel data end_ row buf col).
Proof. unfold createDib_pixel, writeUInt8. settle. Qed.

Lemma createDib_settles (data : buffer) w h bpp :
  0 ≤ w → 0 ≤ h → 0 ≤ bpp → settles (createDib data w h bpp).
Proof.
  intros Hw Hh Hb. unfold createDib.
  rewrite bufferAlloc_Ok by lia. ok_step.
  apply settles_bind; [|intros [buf row] _; apply settles_Ok].
  apply (for_loop_settles (λ s : buffer * Z, 0 ≤ s.2)
           (λ s, Z.to_nat (h * (w * bpp) - s.2))); [|simpl; lia|simpl; lia].
  intros [buf row] Hrow Ht; simpl in *. apply Z.ltb_lt in Ht.
  assert (Hcols : 0 < w * bpp) by nia.
  split; [lia|]. split.
  - apply settles_bind; [|intros [b c] _; apply settles_Ok].
    apply (for_loop_settles (λ s : buffer * Z, 0 ≤ s.2)
             (λ s, Z.to_nat (w * bpp - s.2))); [|simpl; lia|simpl; lia].
    intros [b c] Hc Htc; simpl in *. apply Z.ltb_lt in Htc.
    assert (0 < bpp) by nia.
    split; [lia|]. split.
    + apply settles_bind; [apply createDib_pixel_settles|].
      intros ? _. apply settles_Ok.
    + intros [b' c'] Hbody. apply bind_Ok in Hbody as (b1 & _ & Hbody).
      injection Hbody as <- <-. simpl. lia.
  - intros [b' r'] Hbody. apply bind_Ok in Hbody as ([b1 c1] & _ & Hbody).
    injection Hbody as <- <-. simpl. lia.
Qed.

Lemma mask_bit_settles (data : buffer) srcPos t bit :
  settles (mask_bit data srcPos t bit).
Proof. unfold mask_bit. settle. Qed.

Lemma createMask_row_settles (data buf : buffer) w sw t srcPos y :
  0 ≤ w → settles (createMask_row data w sw t buf srcPos y).
Proof.
  intros Hw. unfold createMask_row.
  apply settles_bind.
  - apply (for_loop_settles (λ _, True)
             (λ s : mask_state * Z, Z.to_nat (w - s.2))); [|done|simpl; lia].
    intros [st x] _ Ht; simpl in *. apply Z.ltb_lt in Ht.
    split; [lia|]. split.
    + unfold createMask_group, writeUInt8.
      repeat (apply settles_bind; [apply mask_bit_settles|intros ? _]).
      settle.
    + intros [st' x'] Hbody.
      apply bind_Ok in Hbody as (m & _ & Hbody).
      apply bind_Ok in Hbody as (b & _ & Hbody).
      injection Hbody as <- <-. simpl. split; [done|lia].
  - intros [st x] _. destruct (negb _); [|apply settles_Ok].
    apply settles_bind.
    + assert (Hrem : 0 ≤ Z.rem w 8 < 8)
        by (rewrite Z.rem_mod_nonneg by lia; zlia).
      apply (for_loop_settles (λ s : Z * Z * Z, 0 ≤ s.2)
               (λ s, Z.to_nat (Z.rem w 8 - s.2))); [|simpl; lia|simpl; lia].
      intros [[m p] x'] Hx Ht; simpl in *. apply Z.ltb_lt in Ht.
      split; [lia|]. split.
      * apply settles_bind; [apply mask_bit_settles|].
        intros ? _. apply settles_Ok.
      * intros [[m' p'] x''] Hbody.
        apply bind_Ok in Hbody as (v & _ & Hbody).
        injection Hbody as <- <- <-. simpl. lia.
    + intros [[m p] x'] _. unfold writeUInt8. settle.
Qed.

Lemma createMask_settles (data : buffer) w h t :
  0 ≤ w ≤ 256 → 0 ≤ h → settles (createMask data w h t).
Proof.
  intros Hw Hh. unfold createMask.
  rewrite getMaskScanWidth_eq by lia.
  assert (0 ≤ (w + 31) / 32 * 4) by zlia.
  rewrite bufferAlloc_Ok by nia. ok_step.
  apply settles_bind; [|intros [[b p] y] _; apply settles_Ok].
  apply (for_loop_settles (λ _, True)
           (λ s : buffer * Z * Z, Z.to_nat (h - s.2))); [|done|simpl; lia].
  intros [[b p] y] _ Ht; simpl in *. apply Z.ltb_lt in Ht.
  split; [lia|]. split.
  - apply settles_bind; [apply createMask_row_settles; lia|].
    intros [b' p'] _. apply settles_Ok.
  - intros [[b' p'] y'] Hbody.
    apply bind_Ok in Hbody as ([b1 p1] & _ & Hbody).
    injection Hbody as <- <- <-. simpl. split; [done|lia].
Qed.

Lemma createHeader_settles n : settles (createHeader n).
Proof.
  unfold createHeader, writeUInt16LE. rewrite bufferAlloc_Ok by done.
  ok_step. settle.
Qed.

Lemma createDirectory_settles x offset : settles (createDirectory x offset).
Proof.
  unfold createDirectory, writeUInt8, writeUInt16LE, writeUInt32LE.
  rewrite bufferAlloc_Ok by done. ok_step. settle.
Qed.

Lemma createBitmap_settles x compression : settles (createBitmap x compression).
Proof.
  unfold createBitmap, writeUInt16LE, writeUInt32LE, writeInt32LE.
  rewrite bufferAlloc_Ok by done. ok_step. settle.
Qed.

(** An image whose directory entry could be written has dimensions in
    0..256 and a bit count that fits 16 bits. *)
Lemma directory_run_ranges offset decoded dirs :
  directory_run offset decoded dirs →
  ∀ x, x ∈ decoded →
    0 ≤ width x ≤ 256 ∧ 0 ≤ height x ≤ 256 ∧ 0 ≤ bpp x ≤ 8191.
Proof.
  induction 1 as [|offset x rest buf size dirs Hdir _ IH]; intros y Hy.
  - by apply elem_of_nil in Hy.
  - apply elem_of_cons in Hy as [->|Hy]; [|by apply IH].
    apply createDirectory_Ok_inv in Hdir as (Hw & Hh & Hb & _).
    unfold dim_byte in Hw, Hh.
    destruct (Z.eqb_spec (width x) 256), (Z.eqb_spec (height x) 256); lia.
Qed.

Lemma push_block_settles st x :
  0 ≤ width x ≤ 256 → 0 ≤ height x ≤ 256 → 0 ≤ bpp x →
  settles (push_block st x).
Proof.
  intros Hw Hh Hb. destruct st as [arr len]. unfold push_block.
  apply settles_bind; [apply createBitmap_settles|]. intros header _.
  apply settles_bind; [apply createDib_settles; lia|]. intros dib _.
  apply settles_bind; [|intros mask _; apply settles_Ok].
  destruct (bpp x =? 4); [apply createMask_settles; lia|].
  rewrite bufferAlloc_Ok by done. apply settles_Ok.
Qed.

(** The encoder ends on every list of images, and the only error it
    raises is the range error of a buffer access or of a field value. *)
Lemma generateIco_decoded_settles (decoded : list image) :
  settles (generateIco_decoded decoded).
Proof.
  unfold generateIco_decoded.
  apply settles_bind; [apply createHeader_settles|]. intros header _.
  apply settles_bind.
  { apply for_of_settles. intros [[arr len] off] x _. unfold push_directory.
    apply settles_bind; [apply createDirectory_settles|].
    intros ? _. apply settles_Ok. }
  intros [[arr1 len1] off1] H1.
  apply push_directory_loop in H1 as (dirs & Hrun & -> & ->).
  apply settles_bind.
  { apply for_of_settles. intros st x Hx.
    destruct (directory_run_ranges _ _ _ Hrun x Hx) as (Hw & Hh & Hb).
    apply push_block_settles; lia. }
  intros [arr2 len2] H2.
  apply push_block_loop in H2 as (blocks & _ & -> & ->).
  match goal with
  | |- settles (Buffer_concat ?arr ?len) =>
      replace len with (Z.of_nat (length (concat arr)))
  end.
  - rewrite Buffer_concat_exact. apply settles_Ok.
  - rewrite !concat_app, concat_block_triples, !length_app. simpl.
    rewrite ?app_nil_r. lia.
Qed.

Lemma for_loop_exit {St : Type} (test : St → bool) (body : St → outcome St) :
  ∀ fuel s s', for_loop fuel test body s = Ok s' → test s' = false.
Proof.
  induction fuel as [|fuel IH]; intros s s' H;
    rewrite for_loop_unfold in H; destruct (test s) eqn:Ht;
    try discriminate; try (by injection H as <-).
  apply bind_Ok in H as (s1 & _ & H). eauto.
Qed.

(** When [createDib] ends well on four-byte pixels, the source held all
    [h] rows: the last byte of the first row it writes is the last byte
    of the destination, which is as long as the source. *)
Lemma createDib_Ok_rows (data : buffer) w h dib :
  1 ≤ w → 1 ≤ h → createDib data w h 4 = Ok dib →
  h * (w * 4) ≤ Z.of_nat (length data).
Proof.
  intros Hw Hh H. unfold createDib in H.
  rewrite bufferAlloc_Ok in H by lia. cbn [mbind outcome_bind] in H.
  apply bind_Ok in H as ([buf row] & Hloop & _).
  rewrite for_loop_unfold in Hloop.
  destruct (Z.ltb_spec 0 (h * (w * 4))) as [_|]; [|nia].
  apply bind_Ok in Hloop as ([buf1 row1] & Hbody & _).
  apply bind_Ok in Hbody as ([buf2 col2] & Hinner & _).
  pose proof (for_loop_exit _ _ _ _ _ Hinner) as Hexit.
  simpl in Hexit. apply Z.ltb_ge in Hexit.
  apply (for_loop_preserves
           (λ s : buffer * Z,
              length s.1 = length data ∧ 0 ≤ s.2 ≤ w * 4 ∧ s.2 mod 4 = 0
              ∧ (0 < s.2 →
                 h * (w * 4) - w * 4 + s.2 ≤ Z.of_nat (length s.1))))
    in Hinner.
  - simpl in Hinner. destruct Hinner as (Hl & Hc & Hm & Hlast). lia.
  - intros [b c] [b' c'] (Hl & Hc & Hm & Hlast) Ht Hpix; simpl in *.
    apply Z.ltb_lt in Ht.
    apply bind_Ok in Hpix as (b1 & Hpix & Hret). injection Hret as <- <-.
    pose proof (createDib_pixel_length _ _ _ _ _ _ Hpix) as Hl'.
    unfold createDib_pixel, writeUInt8 in Hpix. inv_bind Hpix.
    injection Hpix as <-.
    repeat match goal with
           | E : write_int _ _ _ ?bb _ _ = Ok _ |- _ =>
               let L := fresh "L" in
               pose proof (write_int_length _ _ _ _ _ _ _ E) as L;
               apply write_int_Ok_inv in E as (_ & _ & ? & _)
           end.
    split; [congruence|]. split; [zlia|]. split; [zlia|].
    intros _. simpl in *. lia.
  - simpl. rewrite length_replicate, Nat2Z.id. split; [done|].
    split; [lia|]. split; [done|lia].
Qed.

(** ** [createDib]: three-byte pixels *)





(** ** The exported function: options and resizing *)

Lemma Promise_all_Ok_inv {A} (ps : list (outcome A)) : ∀ l,
  Promise_all ps = Ok l → Forall2 (λ p a, p = Ok a) ps l.
Proof.
  induction ps as [|p ps IH]; intros l H.
  - injection H as <-. constructor.
  - cbn [Promise_all] in H. apply bind_Ok in H as (a & Hp & H).
    apply bind_Ok in H as (l' & Hl & H). injection H as <-.
    constructor; [done|by apply IH].
Qed.

Lemma Promise_all_map_Ok_inv {A B} (f : A → outcome B) (xs : list A) l :
  Promise_all (map f xs) = Ok l → Forall2 (λ x a, f x = Ok a) xs l.
Proof.
  intros H. apply Promise_all_Ok_inv in H.
  revert l H. induction xs as [|x xs IH]; intros l H; inversion H; subst;
    constructor; auto.
Qed.

Lemma mapM_Ok_inv {A B} (f : A → outcome B) (xs : list A) : ∀ l,
  mapM f xs = Ok l → Forall2 (λ x a, f x = Ok a) xs l.
Proof.
  induction xs as [|x xs IH]; intros l H.
  - injection H as <-. constructor.
  - cbn [mapM] in H. apply bind_Ok in H as (a & Hp & H).
    apply bind_Ok in H as (l' & Hl & H). injection H as <-.
    constructor; [done|by apply IH].
Qed.

(** The reduction keeps a source that is among the measured ones and as
    wide as any of them. *)
Lemma wider_fold {source} (measured : list (sized source)) : ∀ a,
  ∃ d, foldl wider (Some a) measured = Some d
       ∧ d ∈ a :: measured
       ∧ ∀ y, y ∈ a :: measured → sized_width y ≤ sized_width d.
Proof.
  induction measured as [|b measured IH]; intros a.
  - exists a. split; [done|]. split; [by left|].
    intros y Hy. apply list_elem_of_singleton in Hy as ->. lia.
  - cbn [foldl wider].
    destruct (Z.gtb_spec (sized_width a) (sized_width b)) as [Hgt|Hle].
    + destruct (IH a) as (d & Hd & Hin & Hmax). exists d.
      split; [done|]. split.
      * apply elem_of_cons in Hin as [->|Hin]; [by left|by do 2 right].
      * intros y Hy. apply elem_of_cons in Hy as [->|Hy]; [apply Hmax; by left|].
        apply elem_of_cons in Hy as [->|Hy].
        -- specialize (Hmax a ltac:(by left)). lia.
        -- apply Hmax. by right.
    + destruct (IH b) as (d & Hd & Hin & Hmax). exists d.
      split; [done|]. split; [by right|].
      intros y Hy. apply elem_of_cons in Hy as [->|Hy]; [|by apply Hmax].
      specialize (Hmax b ltac:(by left)). lia.
Qed.

Lemma wider_fold_None {source} (measured : list (sized source)) :
  measured ≠ [] →
  ∃ d, foldl wider None measured = Some d
       ∧ d ∈ measured
       ∧ ∀ y, y ∈ measured → sized_width y ≤ sized_width d.
Proof.
  destruct measured as [|a measured]; [done|]. intros _.
  cbn [foldl wider]. apply wider_fold.
Qed.

Section Resize.
Context {source : Type}.
Variable parsePng : source → outcome image.
Variable imageSize : source → outcome (Z * Z).
Variable resizeImg : source → Z → Z → outcome source.

(** What [resizeImages] returns when it returns, given at least one
    source: the resized copies of one source, as wide as any other, at the
    candidate sizes that do not exceed its width, in their order. *)
Lemma resizeImages_Ok_inv (data : list source) opts resized :
  data ≠ [] →
  resizeImages source imageSize resizeImg data opts = Ok resized →
  ∃ src w h sizes,
    src ∈ data ∧ imageSize src = Ok (w, h)
    ∧ (∀ y, y ∈ data → ∃ wy hy, imageSize y = Ok (wy, hy) ∧ wy ≤ w)
    ∧ opts !! "sizes" = Some (JArr sizes)
    ∧ Forall2 (λ x r, resizeImg src x x = Ok r)
        (List.filter (λ x, x <=? w) sizes) resized.
Proof.
  intros Hne H. unfold resizeImages in H.
  apply bind_Ok in H as (measured & Hm & H). cbv zeta in H.
  apply mapM_Ok_inv in Hm.
  assert (Hmne : measured ≠ []).
  { intros ->. apply Forall2_length in Hm. by destruct data. }
  destruct (wider_fold_None measured Hmne) as (d & Hd & Hin & Hmax).
  rewrite Hd in H.
  destruct (opts !! "sizes") as [[| | |sizes]|] eqn:Hsizes; try discriminate.
  apply Promise_all_map_Ok_inv in H.
  apply list_elem_of_lookup in Hin as [i Hi].
  destruct (Forall2_lookup_r _ _ _ _ _ Hm Hi) as (src & Hsrc & Himg).
  apply bind_Ok in Himg as ([w h] & Hsize & Himg). injection Himg as <-.
  simpl in *.
  exists src, w, h, sizes. split; [by eapply list_elem_of_lookup_2|].
  split; [done|]. split; [|done].
  intros y Hy. apply list_elem_of_lookup in Hy as [j Hj].
  destruct (Forall2_lookup_l _ _ _ _ _ Hm Hj) as (m & Hmj & Himg).
  apply bind_Ok in Himg as ([wy hy] & Hsize' & Himg). injection Himg as <-.
  exists wy, hy. split; [done|].
  apply (Hmax (Sized y wy hy)). by eapply list_elem_of_lookup_2.
Qed.

(** C10. With the resize option on and at least one source, what is
    encoded is: one source only, as wide as any other, resized to every
    candidate size that does not exceed its width, and nothing else; so
    the number of encoded images, which the header records, is the number
    of those sizes. *)
Theorem toIco_resize (i : input source) opts out :
  truthy (assign_opts opts !! "resize") = true →
  arrify i ≠ [] →
  toIco source parsePng imageSize resizeImg i opts = Ok out →
  ∃ src w h sizes resized decoded,
    src ∈ arrify i ∧ imageSize src = Ok (w, h)
    ∧ (∀ y, y ∈ arrify i → ∃ wy hy, imageSize y = Ok (wy, hy) ∧ wy ≤ w)
    ∧ assign_opts opts !! "sizes" = Some (JArr sizes)
    ∧ Forall2 (λ x r, resizeImg src x x = Ok r)
        (List.filter (λ x, x <=? w) sizes) resized
    ∧ Forall2 (λ r d, parsePng r = Ok d) resized decoded
    ∧ generateIco_decoded decoded = Ok out
    ∧ length decoded = length (List.filter (λ x, x <=? w) sizes)
    ∧ field out 4 2 = Z.of_nat (length (List.filter (λ x, x <=? w) sizes)).
Proof.
  intros Hresize Hne H. unfold toIco in H. cbv zeta in H.
  rewrite Hresize in H.
  apply bind_Ok in H as (resized & Hr & H).
  unfold generateIco in H. apply bind_Ok in H as (decoded & Hp & H).
  apply resizeImages_Ok_inv in Hr as (src & w & h & sizes & Hin & Hsize & Hmax & Hs & Hres);
    [|done].
  apply Promise_all_map_Ok_inv in Hp.
  exists src, w, h, sizes, resized, decoded.
  repeat (split; [done|]).
  assert (Hlen : length decoded = length (List.filter (λ x, x <=? w) sizes)).
  { apply Forall2_length in Hp, Hres. lia. }
  split; [done|].
  apply generateIco_decoded_inv in H as (header & dirs & blocks & Hh & _ & _ & ->).
  apply createHeader_Ok_inv in Hh as [Hn ->].
  change (field ((le_bytes 2 0 ++ le_bytes 2 1
                  ++ le_bytes 2 (Z.of_nat (length decoded)))
                 ++ concat dirs ++ concat (map block_bytes blocks)) 4 2)
    with (le_value (le_bytes 2 (Z.of_nat (length decoded)))).
  rewrite le_value_unsigned by (simpl; lia). lia.
Qed.

End Resize.

(** Sources of sides 2 and 1, candidate sizes 1, 2 and 3: the source of
    side 2 is resized to 1 and 2. *)
Lemma toIco_resize_witness :
  truthy (assign_opts (Some {[ "resize" := JBool true;
                               "sizes" := JArr [1; 2; 3] ]}) !! "resize") = true
  ∧ arrify (InputArray [2; 1]) ≠ []
  ∧ ∃ out,
      toIco Z square_png square_size square_resize (InputArray [2; 1])
        (Some {[ "resize" := JBool true; "sizes" := JArr [1; 2; 3] ]}) = Ok out
      ∧ field out 4 2 = 2.
Proof.
  assert (Hresize : truthy (assign_opts
            (Some {[ "resize" := JBool true; "sizes" := JArr [1; 2; 3] ]})
            !! "resize") = true) by reflexivity.
  split; [exact Hresize|]. split; [done|].
  eexists. split; [vm_compute; reflexivity|].
  match goal with
  | |- field ?o _ _ = _ =>
      assert (Hrun : toIco Z square_png square_size square_resize
                       (InputArray [2; 1])
                       (Some {[ "resize" := JBool true;
                                "sizes" := JArr [1; 2; 3] ]}) = Ok o)
        by (vm_compute; reflexivity)
  end.
  assert (Hne : arrify (InputArray [2; 1]) ≠ []) by done.
  destruct (toIco_resize square_png square_size square_resize _ _ _
              Hresize Hne Hrun)
    as (src & w & h & sizes & resized & decoded & Hin & Hsize & Hmax & Hs
        & _ & _ & _ & _ & Hcount).
  rewrite Hcount. clear Hcount Hrun.
  assert (sizes = [1; 2; 3]) as -> by (vm_compute in Hs; congruence).
  injection Hsize as -> _.
  destruct (Hmax 2 ltac:(by left)) as (wy & hy & Hy & Hle).
  injection Hy as <- _.
  assert (w = 2) as ->.
  { apply elem_of_cons in Hin as [->|Hin]; [done|].
    apply list_elem_of_singleton in Hin. lia. }
  reflexivity.
Defined.

(** *** The mask threshold *)

(** The options the exported function reads are [resize] and [sizes]:
    one more property changes nothing. *)
Lemma toIco_ignores_option {source : Type} parsePng imageSize resizeImg
    (i : input source) (opts : gmap string jsval) key v :
  key ≠ "resize" → key ≠ "sizes" →
  toIco source parsePng imageSize resizeImg i (Some (<[key := v]> opts))
  = toIco source parsePng imageSize resizeImg i (Some opts).
Proof.
  intros Hr Hs. unfold toIco, resizeImages, assign_opts. cbv zeta.
  rewrite !lookup_union, !lookup_insert_ne by done. done.
Qed.

(** C9, as the code has it. The threshold of the mask is the constant 1:
    a [maskThreshold] among the options changes nothing in the result, and
    in every file that is produced the mask of an image of four bytes a
    pixel is [createMask] of its pixel array at threshold 1, whose bit for
    pixel [(px, py)] is set exactly when the alpha byte of that pixel is
    below 1. *)
Theorem mask_threshold_fixed :
  (∀ (source : Type) parsePng imageSize resizeImg (i : input source)
     (opts : gmap string jsval) v,
     toIco source parsePng imageSize resizeImg i
       (Some (<["maskThreshold" := v]> opts))
     = toIco source parsePng imageSize resizeImg i (Some opts))
  ∧ ∀ decoded out i x,
      generateIco_decoded decoded = Ok out →
      decoded !! i = Some x →
      bpp x = 4 → 1 ≤ width x ≤ 256 → 1 ≤ height x ≤ 256 →
      ∃ header dib mask,
        take (Z.to_nat (sizeInBytes (entry out i)))
          (drop (Z.to_nat (fileOffset (entry out i))) out)
        = header ++ dib ++ mask
        ∧ createDib (data x) (width x) (height x) 4 = Ok dib
        ∧ createMask dib (width x) (height x) 1 = Ok mask
        ∧ ∀ px py, 0 ≤ px < width x → 0 ≤ py < height x →
            ∃ m a,
              mask !! Z.to_nat (py * getMaskScanWidth (width x) + px / 8)
              = Some m
              ∧ dib !! Z.to_nat ((py * width x + px) * 4 + 3) = Some a
              ∧ Z.testbit (Z_of_byte m) (7 - px mod 8) = (Z_of_byte a <? 1).
Proof.
  split; [intros; by apply toIco_ignores_option|].
  intros decoded out i x Hout Hi Hb Hw Hh.
  destruct (generateIco_entry decoded out Hout i x Hi)
    as (_ & Hs & Ho & [[header dib] mask] & (Hhd & Hdib & Hmask) & Hbytes).
  simpl in Hdib, Hmask. rewrite Hb in Hdib, Hmask. simpl in Hmask.
  exists header, dib, mask. rewrite Hs, Ho.
  split; [exact Hbytes|]. split; [done|]. split; [done|].
  pose proof (createDib_length _ _ _ _ _ Hdib) as Hl.
  assert (Hrows : height x * (width x * 4) ≤ Z.of_nat (length (data x)))
    by (apply (createDib_Ok_rows _ _ _ dib); (done || lia)).
  destruct (createMask_bytes dib (width x) (height x) 1)
    as (mask' & Hmask' & _ & Hbits); [lia|lia|lia|].
  assert (mask' = mask) as -> by congruence.
  rewrite getMaskScanWidth_eq by lia.
  intros px py Hpx Hpy.
  destruct (Hbits py (px / 8)) as (m & Hm & Hok); [done|zlia|].
  destruct (lookup_lt_is_Some_2 dib (Z.to_nat ((py * width x + px) * 4 + 3)))
    as [a Ha]; [nia|].
  exists m, a. split; [done|]. split; [done|].
  rewrite (Hok (7 - px mod 8)) by zlia. unfold mask_bit_spec.
  replace (8 * (px / 8) + (7 - (7 - px mod 8))) with px by zlia.
  rewrite (alpha_lookup dib (width x) px py _ a eq_refl Ha).
  destruct (Z.ltb_spec (7 - px mod 8) 8); [|zlia].
  by destruct (Z.ltb_spec px (width x)); [|lia].
Qed.

(** One clear pixel. *)
Lemma mask_threshold_fixed_witness :
  ∃ out,
    generateIco_decoded [Image 1 1 4 (map byte_of_Z [9; 8; 7; 0])] = Ok out
    ∧ ∃ header dib mask,
        take (Z.to_nat (sizeInBytes (entry out 0)))
          (drop (Z.to_nat (fileOffset (entry out 0))) out)
        = header ++ dib ++ mask
        ∧ createMask dib 1 1 1 = Ok mask.
Proof.
  eexists. split; [vm_compute; reflexivity|].
  match goal with
  | |- ∃ header dib mask, take _ (drop _ ?o) = _ ∧ _ =>
      destruct (proj2 mask_threshold_fixed
                  [Image 1 1 4 (map byte_of_Z [9; 8; 7; 0])] o 0%nat
                  (Image 1 1 4 (map byte_of_Z [9; 8; 7; 0]))
                  eq_refl eq_refl eq_refl)
        as (header & dib & mask & Hbytes & _ & Hmask & _); [simpl; lia..|]
  end.
  exists header, dib, mask. split; [exact Hbytes|exact Hmask].
Defined.

(** C9 as the specification states it fails: with [maskThreshold] 200
    among the options and a pixel of alpha 100, which is below 200, the
    bit of the pixel (bit 7 of the first byte of the mask, at offset
    6 + 16 + 40 + 4 of the file) is clear. *)
Lemma maskThreshold_not_consulted :
  ∃ out m,
    toIco image (λ x, Ok x) (λ x, Ok (width x, height x)) (λ x _ _, Ok x)
      (InputOne (Image 1 1 4 (map byte_of_Z [9; 8; 7; 100])))
      (Some {[ "maskThreshold" := JNum 200 ]}) = Ok out
    ∧ out !! 66%nat = Some m
    ∧ (100 <? 200) = true
    ∧ Z.testbit (Z_of_byte m) 7 = false.
Proof.
  eexists. eexists. split; [vm_compute; reflexivity|].
  split; [reflexivity|]. split; reflexivity.
Qed.

(** ** Acceptance *)

Lemma directory_size_rgba x :
  rgba_image x →
  directory_size x
  = Z.of_nat (length (data x)) + 40 + (width x + 31) / 32 * 4 * height x
  ∧ 40 ≤ directory_size x.
Proof.
  intros (Hb & Hw & Hh & Hl). unfold directory_size.
  rewrite Hb, getMaskScanWidth_eq by lia. simpl.
  split; [done|]. assert (0 ≤ (width x + 31) / 32 * 4) by zlia. nia.
Qed.

Lemma sumZ_rgba_nonneg decoded :
  Forall rgba_image decoded → 0 ≤ sumZ (map directory_size decoded).
Proof.
  induction 1 as [|x l Hx _ IH]; [done|].
  destruct (directory_size_rgba x Hx) as [_ ?].
  unfold sumZ in *. simpl. lia.
Qed.

Lemma rgba_data_small decoded :
  Forall rgba_image decoded →
  ∀ z, 0 ≤ z → z + sumZ (map directory_size decoded) ≤ 4294967295 →
  Forall (λ x, Z.of_nat (length (data x)) ≤ 4294967295) decoded.
Proof.
  induction 1 as [|x l Hx Hl IH]; intros z Hz Hmax; [constructor|].
  destruct (directory_size_rgba x Hx) as [Hs Hs40].
  pose proof (sumZ_rgba_nonneg l Hl) as Hrest.
  assert (Hsum : sumZ (map directory_size (x :: l))
                 = directory_size x + sumZ (map directory_size l)) by done.
  destruct Hx as (Hb & Hw & Hh & Hlen).
  assert (0 ≤ (width x + 31) / 32 * 4) by zlia.
  constructor; [nia|]. apply (IH (z + directory_size x)); lia.
Qed.

Lemma push_directory_eq arr len offset x :
  push_directory (arr, len, offset) x
  = dir ← createDirectory x offset;
    mret (arr ++ [dir.1], len + Z.of_nat (length dir.1), offset + dir.2).
Proof. done. Qed.

Lemma push_block_eq arr len x :
  push_block (arr, len) x
  = header ← createBitmap x constants.colorMode;
    dib ← createDib (data x) (width x) (height x) (bpp x);
    mask ← (if bpp x =? 4 then createMask dib (width x) (height x) 1
            else bufferAlloc 0);
    mret (arr ++ [header; dib; mask],
          len + Z.of_nat (length header) + Z.of_nat (length dib)
              + Z.of_nat (length mask)).
Proof. done. Qed.

Lemma push_directory_accepts decoded :
  Forall rgba_image decoded →
  ∀ arr len offset,
    0 ≤ offset →
    offset + sumZ (map directory_size decoded) ≤ 4294967295 →
    ∃ st, for_of decoded push_directory (arr, len, offset) = Ok st.
Proof.
  induction 1 as [|x l Hx Hl IH]; intros arr len offset H0 Hmax.
  - eexists. reflexivity.
  - destruct (directory_size_rgba x Hx) as [_ Hs].
    pose proof (sumZ_rgba_nonneg l Hl) as Hrest.
    destruct Hx as (Hb & Hw & Hh & Hlen).
    assert (Hsum : sumZ (map directory_size (x :: l))
                   = directory_size x + sumZ (map directory_size l)) by done.
    cbn [for_of]. rewrite push_directory_eq.
    rewrite createDirectory_Ok; [ok_step; cbn [fst snd]; apply IH; lia|..].
    + unfold dim_byte. destruct (Z.eqb_spec (width x) 256); lia.
    + unfold dim_byte. destruct (Z.eqb_spec (height x) 256); lia.
    + lia.
    + lia.
    + lia.
Qed.

Lemma push_block_accepts decoded :
  Forall rgba_image decoded →
  Forall (λ x, Z.of_nat (length (data x)) ≤ 4294967295) decoded →
  ∀ arr len, ∃ st, for_of decoded push_block (arr, len) = Ok st.
Proof.
  induction 1 as [|x l Hx Hl IH]; intros Hsmall arr len.
  - eexists. reflexivity.
  - apply Forall_cons in Hsmall as [Hx4 Hl4].
    destruct Hx as (Hb & Hw & Hh & Hlen).
    cbn [for_of]. rewrite push_block_eq.
    rewrite createBitmap_Ok by (unfold constants.colorMode; lia). ok_step.
    rewrite Hb.
    destruct (createDib_rgba (data x) (width x) (height x))
      as (dib & Hdib & Hdl & _); [lia|lia|lia|].
    rewrite Hdib. ok_step.
    destruct (createMask_bytes dib (width x) (height x) 1)
      as (mask & Hmask & _); [lia|lia|lia|].
    simpl. rewrite Hmask. ok_step. by apply IH.
Qed.

(** Every list of images of four bytes a pixel, with sizes in 1..256
    and whole buffers, is accepted, as long as the count fits 16 bits and
    the file 32 bits. *)
Lemma generateIco_decoded_accepts (decoded : list image) :
  Forall rgba_image decoded →
  Z.of_nat (length decoded) ≤ 65535 →
  6 + 16 * Z.of_nat (length decoded) + sumZ (map directory_size decoded)
    ≤ 4294967295 →
  ∃ out, generateIco_decoded decoded = Ok out.
Proof.
  intros Hall Hn Hmax.
  destruct (generateIco_decoded_settles decoded) as [Hok|Hthrow]; [done|].
  exfalso. unfold generateIco_decoded in Hthrow.
  rewrite createHeader_Ok in Hthrow by lia. cbn [mbind outcome_bind] in Hthrow.
  destruct (push_directory_accepts decoded Hall
              [le_bytes 2 0 ++ le_bytes 2 1 ++ le_bytes 2 (Z.of_nat (length decoded))]
              (Z.of_nat (length (le_bytes 2 0 ++ le_bytes 2 1
                                 ++ le_bytes 2 (Z.of_nat (length decoded)))))
              (constants.headerSize
               + constants.directorySize * Z.of_nat (length decoded)))
    as ([[arr1 len1] off1] & H1);
    [unfold constants.headerSize, constants.directorySize; lia
    |unfold constants.headerSize, constants.directorySize; lia|].
  rewrite H1 in Hthrow. cbn [mbind outcome_bind] in Hthrow.
  assert (Hsmall : Forall (λ x, Z.of_nat (length (data x)) ≤ 4294967295) decoded)
    by (apply (rgba_data_small decoded Hall
                 (6 + 16 * Z.of_nat (length decoded))); lia).
  destruct (push_block_accepts decoded Hall Hsmall arr1 len1) as ([arr2 len2] & H2).
  rewrite H2 in Hthrow. cbn [mbind outcome_bind] in Hthrow.
  apply push_directory_loop in H1 as (dirs & _ & -> & ->).
  apply push_block_loop in H2 as (blocks & _ & -> & ->).
  match type of Hthrow with
  | Buffer_concat ?arr ?len = _ =>
      replace len with (Z.of_nat (length (concat arr))) in Hthrow
  end.
  - by rewrite Buffer_concat_exact in Hthrow.
  - rewrite !concat_app, concat_block_triples, !length_app. simpl.
    rewrite ?app_nil_r. lia.
Qed.

(** C5, as the code has it. The encoder checks nothing beforehand: it
    ends on every list of images and its only error is the range error of
    a buffer access or field value. It fails with that error whenever an
    image of four bytes a pixel, of width and height at least 1, has fewer
    than [width * height * 4] bytes, and returns a buffer when every image
    has four bytes a pixel, sizes in 1..256 and at least that many bytes
    (the count fitting 16 bits and the file 32 bits). A failure returns no
    buffer. *)
Theorem generateIco_failures (decoded : list image) :
  ((∃ out, generateIco_decoded decoded = Ok out)
   ∨ generateIco_decoded decoded = Throw ERR_OUT_OF_RANGE)
  ∧ (∀ x, x ∈ decoded → bpp x = 4 → 1 ≤ width x → 1 ≤ height x →
       Z.of_nat (length (data x)) < width x * height x * 4 →
       generateIco_decoded decoded = Throw ERR_OUT_OF_RANGE)
  ∧ (Forall rgba_image decoded →
     Z.of_nat (length decoded) ≤ 65535 →
     6 + 16 * Z.of_nat (length decoded) + sumZ (map directory_size decoded)
       ≤ 4294967295 →
     ∃ out, generateIco_decoded decoded = Ok out).
Proof.
  pose proof (generateIco_decoded_settles decoded) as Hs.
  split; [exact Hs|]. split; [|apply generateIco_decoded_accepts].
  intros x Hx Hb Hw Hh Hshort.
  destruct Hs as [[out Hout]|Hthrow]; [exfalso|done].
  apply generateIco_decoded_inv in Hout as (_ & _ & blocks & _ & _ & Hblocks & _).
  apply list_elem_of_lookup in Hx as [i Hi].
  destruct (Forall2_lookup_l _ _ _ _ _ Hblocks Hi) as (b & _ & _ & Hdib & _).
  rewrite Hb in Hdib. apply createDib_Ok_rows in Hdib; [nia|done|done].
Qed.

(** One pixel of four bytes with a buffer of three. *)
Lemma generateIco_failures_witness :
  Image 1 1 4 (map byte_of_Z [1; 2; 3]) ∈ [Image 1 1 4 (map byte_of_Z [1; 2; 3])]
  ∧ Z.of_nat (length (map byte_of_Z [1; 2; 3])) < 1 * 1 * 4
  ∧ generateIco_decoded [Image 1 1 4 (map byte_of_Z [1; 2; 3])]
    = Throw ERR_OUT_OF_RANGE.
Proof.
  split; [by left|]. split; [simpl; lia|].
  apply (proj1 (proj2 (generateIco_failures
                         [Image 1 1 4 (map byte_of_Z [1; 2; 3])]))
           (Image 1 1 4 (map byte_of_Z [1; 2; 3])));
    [by left|reflexivity|simpl; lia|simpl; lia|simpl; lia].
Defined.

(** C5 as the specification states it fails: an image whose buffer is
    longer than [width * height * bpp], and an image of five bytes a
    pixel, are both encoded without any error. *)
Lemma generateIco_unvalidated :
  (Z.of_nat (length (map byte_of_Z [1; 2; 3; 4; 5; 6; 7; 8])) ≠ 1 * 1 * 4
   ∧ ∃ out, generateIco_decoded
              [Image 1 1 4 (map byte_of_Z [1; 2; 3; 4; 5; 6; 7; 8])] = Ok out)
  ∧ (5 ≠ 3 ∧ 5 ≠ 4
     ∧ Z.of_nat (length (map byte_of_Z [1; 2; 3; 4; 5])) = 1 * 1 * 5
     ∧ ∃ out, generateIco_decoded
                [Image 1 1 5 (map byte_of_Z [1; 2; 3; 4; 5])] = Ok out).
Proof.
  split.
  - split; [simpl; lia|]. eexists. vm_compute. reflexivity.
  - split; [lia|]. split; [lia|]. split; [reflexivity|].
    eexists. vm_compute. reflexivity.
Qed.

(** ** The examples of the specification *)

(** One opaque image of 16 by 16 pixels: the header announces one image,
    the entry says 16 by 16, 32 bits, a block of 1128 bytes at offset 22,
    and the file has 1150 bytes. *)
Example ico_16x16 :
  ∃ out,
    generateIco_decoded [Image 16 16 4 (replicate 1024 xff)] = Ok out
    ∧ take 6 out = [x00; x00; x01; x00; x01; x00]
    ∧ field (entry out 0) 0 1 = 16 ∧ field (entry out 0) 1 1 = 16
    ∧ field (entry out 0) 6 2 = 32
    ∧ sizeInBytes (entry out 0) = 1128 ∧ fileOffset (entry out 0) = 22
    ∧ length out = 1150%nat.
Proof. eexists. split; [vm_compute; reflexivity|]. by vm_compute. Qed.

(** An opaque image of 2 by 2 pixels at threshold 1: two rows of four
    zero bytes. *)
Example mask_2x2_opaque :
  createMask (replicate 16 xff) 2 2 1 = Ok (replicate 8 x00).
Proof. reflexivity. Qed.

(** No image: the header alone. *)
Example ico_empty : generateIco_decoded [] = Ok [x00; x00; x01; x00; x00; x00].
Proof. reflexivity. Qed.

(** * More of the encoder *)

(** ** The header and the directory entry, read back *)

Lemma write_int_value_out size min max (buf : buffer) value offset :
  value < min ∨ max < value →
  write_int size min max buf value offset = Throw ERR_OUT_OF_RANGE.
Proof.
  intros H. unfold write_int.
  destruct (Z.leb_spec min value), (Z.leb_spec value max); (done || lia).
Qed.

(** X1. For a count that fits 16 bits [createHeader] gives six bytes:
    reserved 0, type 1 and the count, each read back as a little-endian
    16-bit field. *)
Theorem createHeader_fields n :
  0 ≤ n ≤ 65535 →
  ∃ buf,
    createHeader n = Ok buf ∧ length buf = 6%nat
    ∧ field buf 0 2 = 0 ∧ field buf 2 2 = 1 ∧ field buf 4 2 = n.
Proof.
  intros Hn. exists (le_bytes 2 0 ++ le_bytes 2 1 ++ le_bytes 2 n).
  split; [by apply createHeader_Ok|]. split; [done|].
  set (buf := le_bytes 2 0 ++ le_bytes 2 1 ++ le_bytes 2 n).
  change (field buf 0 2) with (le_value (le_bytes 2 0)).
  change (field buf 2 2) with (le_value (le_bytes 2 1)).
  change (field buf 4 2) with (le_value (le_bytes 2 n)).
  rewrite !le_value_unsigned by (simpl; lia). done.
Qed.

Lemma createHeader_fields_witness :
  0 ≤ 258 ≤ 65535
  ∧ ∃ buf, createHeader 258 = Ok buf ∧ field buf 4 2 = 258.
Proof.
  split; [lia|].
  destruct (createHeader_fields 258) as (buf & Hrun & _ & _ & _ & Hn); [lia|].
  exists buf. split; [exact Hrun|exact Hn].
Defined.

Lemma createHeader_out n :
  n < 0 ∨ 65535 < n → createHeader n = Throw ERR_OUT_OF_RANGE.
Proof.
  intros Hn. unfold createHeader, constants.headerSize, writeUInt16LE.
  rewrite bufferAlloc_Ok by done. ok_step.
  rewrite (write_int_Ok 2 0 65535 _ 0 0)
    by (rewrite ?length_replicate; simpl; lia). ok_step.
  rewrite (write_int_Ok 2 0 65535 _ 1 2)
    by (rewrite ?length_write_bytes, ?length_replicate; simpl; lia). ok_step.
  by rewrite write_int_value_out.
Qed.

(** X2. More than 65535 images cannot be announced by the header:
    [generateIco] fails with the range error before anything is encoded. *)
Theorem generateIco_too_many (decoded : list image) :
  65535 < Z.of_nat (length decoded) →
  generateIco_decoded decoded = Throw ERR_OUT_OF_RANGE.
Proof.
  intros Hn. unfold generateIco_decoded.
  by rewrite createHeader_out by (right; lia).
Qed.

Lemma generateIco_too_many_witness :
  65535 < Z.of_nat (length (replicate (Z.to_nat 65536) (Image 1 1 4 [])))
  ∧ generateIco_decoded (replicate (Z.to_nat 65536) (Image 1 1 4 []))
    = Throw ERR_OUT_OF_RANGE.
Proof.
  assert (H : 65535 < Z.of_nat (length (replicate (Z.to_nat 65536) (Image 1 1 4 []))))
    by (rewrite length_replicate; lia).
  split; [exact H|]. exact (generateIco_too_many _ H).
Defined.

(** X3. Every directory entry that is written has sixteen bytes and
    records: colour count 0, reserved 0, one plane, [bpp * 8] bits, the
    size [data.length + 40 + mask] (the mask counted for four bytes a
    pixel only) and the offset it was given; the size is also what the
    function returns. *)
Theorem createDirectory_fields (x : image) offset buf size :
  createDirectory x offset = Ok (buf, size) →
  length buf = 16%nat
  ∧ field buf 2 1 = 0 ∧ field buf 3 1 = 0 ∧ field buf 4 2 = 1
  ∧ field buf 6 2 = bpp x * 8
  ∧ field buf 8 4 = size ∧ field buf 12 4 = offset
  ∧ size = Z.of_nat (length (data x)) + 40
           + (if bpp x =? 4 then getMaskScanWidth (width x) * height x else 0).
Proof.
  intros H.
  apply createDirectory_Ok_inv in H as (Hw & Hh & Hb & Hs & Ho & -> & ->).
  destruct (directory_fields x offset Hw Hh Hb Hs Ho)
    as (_ & _ & F2 & F3 & F4 & F6 & F8 & F12).
  by repeat split.
Qed.

Lemma createDirectory_fields_witness :
  ∃ buf,
    createDirectory (Image 2 2 4 (replicate 16 x00)) 22 = Ok (buf, 64)
    ∧ field buf 6 2 = 32 ∧ field buf 8 4 = 64 ∧ field buf 12 4 = 22.
Proof.
  eexists. split; [reflexivity|].
  match goal with
  | |- field ?b _ _ = _ ∧ _ =>
      destruct (createDirectory_fields (Image 2 2 4 (replicate 16 x00)) 22 b 64
                  eq_refl) as (_ & _ & _ & _ & F6 & F8 & F12 & _)
  end.
  split; [exact F6|]. split; [exact F8|exact F12].
Defined.

(** X4. An image whose width or height lies outside 0..256, or whose
    [bpp * 8] does not fit 16 bits, makes [generateIco] fail with the
    range error, wherever it stands in the list. *)
Theorem generateIco_rejects_dimensions (decoded : list image) x :
  x ∈ decoded →
  width x < 0 ∨ 256 < width x ∨ height x < 0 ∨ 256 < height x
  ∨ bpp x < 0 ∨ 8191 < bpp x →
  generateIco_decoded decoded = Throw ERR_OUT_OF_RANGE.
Proof.
  intros Hx Hbad.
  destruct (generateIco_decoded_settles decoded) as [[out Hout]|Hthrow];
    [exfalso|done].
  apply generateIco_decoded_inv in Hout as (_ & dirs & _ & _ & Hrun & _).
  pose proof (directory_run_ranges _ _ _ Hrun x Hx). lia.
Qed.

Lemma generateIco_rejects_dimensions_witness :
  Image 257 1 4 (replicate 1028 x00)
    ∈ [Image 1 1 4 (replicate 4 x00); Image 257 1 4 (replicate 1028 x00)]
  ∧ 256 < 257
  ∧ generateIco_decoded
      [Image 1 1 4 (replicate 4 x00); Image 257 1 4 (replicate 1028 x00)]
    = Throw ERR_OUT_OF_RANGE.
Proof.
  split; [right; left|]. split; [lia|].
  apply (generateIco_rejects_dimensions _ (Image 257 1 4 (replicate 1028 x00)));
    [right; left|simpl; lia].
Defined.

(** ** The mask: width of a row, threshold, alpha *)

(** X5. The width of a mask row is the least multiple of four bytes that
    holds one bit for each of the [w] pixels. *)
Theorem getMaskScanWidth_least w :
  0 ≤ w < 1073741824 →
  getMaskScanWidth w mod 4 = 0
  ∧ w ≤ 8 * getMaskScanWidth w < w + 32.
Proof. intros H. rewrite getMaskScanWidth_eq by done. zlia. Qed.

Lemma getMaskScanWidth_least_witness :
  0 ≤ 33 < 1073741824
  ∧ getMaskScanWidth 33 mod 4 = 0 ∧ 33 ≤ 8 * getMaskScanWidth 33 < 33 + 32.
Proof. split; [lia|]. apply getMaskScanWidth_least. lia. Defined.

(** Byte [i] of a mask that was built is byte [i mod sw] of row [i / sw]
    and follows the format. *)
Lemma createMask_lookup (data : buffer) w h t mask i m :
  0 ≤ w < 1073741824 → 0 ≤ h →
  w * h * 4 ≤ Z.of_nat (length data) →
  createMask data w h t = Ok mask →
  mask !! i = Some m →
  let sw := (w + 31) / 32 * 4 in
  0 < sw ∧ 0 ≤ Z.of_nat i / sw < h
  ∧ mask_byte_ok data w t (Z.of_nat i / sw) (Z.of_nat i mod sw) m.
Proof.
  intros Hw Hh Hlen Hrun Hm sw.
  destruct (createMask_bytes data w h t Hw Hh Hlen) as (mask' & Hrun' & Hl & Hbytes).
  fold sw in Hl, Hbytes. assert (mask' = mask) as -> by congruence.
  apply lookup_lt_Some in Hm as Hi.
  assert (Hsw : 0 < sw) by (assert (0 ≤ sw) by (unfold sw; zlia); nia).
  pose proof (Z.div_mod (Z.of_nat i) sw ltac:(lia)) as Hdm.
  pose proof (Z.mod_pos_bound (Z.of_nat i) sw ltac:(lia)) as Hmod.
  assert (Hy : 0 ≤ Z.of_nat i / sw < h) by nia.
  split; [done|]. split; [done|].
  destruct (Hbytes _ _ Hy Hmod) as (m' & Hm' & Hok).
  replace (Z.to_nat (Z.of_nat i / sw * sw + Z.of_nat i mod sw)) with i
    in Hm' by lia.
  assert (m' = m) as -> by congruence. done.
Qed.

Lemma mask_bit_spec_mono (data : buffer) w t t' y j b :
  t ≤ t' → mask_bit_spec data w t y j b = true →
  mask_bit_spec data w t' y j b = true.
Proof.
  unfold mask_bit_spec. intros Ht H.
  apply andb_true_iff in H as [H Ha]. rewrite H. simpl.
  apply Z.ltb_lt in Ha. apply Z.ltb_lt. lia.
Qed.

(** X6. Raising the threshold never clears a bit of the mask: every bit
    set at threshold [t] is set at any threshold [t'] above it. *)
Theorem createMask_monotone (data : buffer) w h t t' :
  0 ≤ w < 1073741824 → 0 ≤ h →
  w * h * 4 ≤ Z.of_nat (length data) →
  t ≤ t' →
  ∃ mask mask',
    createMask data w h t = Ok mask ∧ createMask data w h t' = Ok mask'
    ∧ length mask = length mask'
    ∧ ∀ i m m' b,
        mask !! i = Some m → mask' !! i = Some m' → 0 ≤ b →
        Z.testbit (Z_of_byte m) b = true → Z.testbit (Z_of_byte m') b = true.
Proof.
  intros Hw Hh Hlen Ht.
  destruct (createMask_bytes data w h t Hw Hh Hlen) as (mask & Hrun & Hl & _).
  destruct (createMask_bytes data w h t' Hw Hh Hlen) as (mask' & Hrun' & Hl' & _).
  exists mask, mask'. split; [done|]. split; [done|]. split; [lia|].
  intros i m m' b Hm Hm' Hb Hbit.
  destruct (createMask_lookup data w h t mask i m Hw Hh Hlen Hrun Hm)
    as (_ & _ & Hok).
  destruct (createMask_lookup data w h t' mask' i m' Hw Hh Hlen Hrun' Hm')
    as (_ & _ & Hok').
  rewrite (Hok' b Hb). rewrite (Hok b Hb) in Hbit.
  by apply (mask_bit_spec_mono data w t t').
Qed.

Lemma createMask_monotone_witness :
  1 ≤ 200
  ∧ ∃ mask mask',
      createMask (map byte_of_Z [1; 2; 3; 0; 5; 6; 7; 100]) 2 1 1 = Ok mask
      ∧ createMask (map byte_of_Z [1; 2; 3; 0; 5; 6; 7; 100]) 2 1 200 = Ok mask'
      ∧ length mask = length mask'.
Proof.
  split; [lia|].
  destruct (createMask_monotone (map byte_of_Z [1; 2; 3; 0; 5; 6; 7; 100])
              2 1 1 200) as (mask & mask' & H1 & H2 & Hl & _);
    [lia|lia|simpl; lia|lia|].
  exists mask, mask'. split; [exact H1|]. split; [exact H2|exact Hl].
Defined.

Lemma byte_zero_bits (m : byte) :
  (∀ b, 0 ≤ b → Z.testbit (Z_of_byte m) b = false) → m = x00.
Proof.
  intros H. rewrite <- (byte_of_Z_of_byte m).
  replace (Z_of_byte m) with 0; [done|].
  symmetry. apply Z.bits_inj'. intros b Hb. by rewrite Z.bits_0, H.
Qed.

Lemma byte_eq_bits (m m' : byte) :
  (∀ b, 0 ≤ b → Z.testbit (Z_of_byte m) b = Z.testbit (Z_of_byte m') b) →
  m = m'.
Proof.
  intros H. rewrite <- (byte_of_Z_of_byte m), <- (byte_of_Z_of_byte m').
  f_equal. by apply Z.bits_inj'.
Qed.

(** X7. When no pixel has an alpha byte below the threshold the mask is
    all zero: [scanWidth * h] zero bytes, whatever the colours are. *)
Theorem createMask_opaque (data : buffer) w h t :
  0 ≤ w < 1073741824 → 0 ≤ h →
  w * h * 4 ≤ Z.of_nat (length data) →
  (∀ p a, 0 ≤ p < w * h → data !! Z.to_nat (4 * p + 3) = Some a →
     t ≤ Z_of_byte a) →
  createMask data w h t
  = Ok (replicate (Z.to_nat (getMaskScanWidth w * h)) x00).
Proof.
  intros Hw Hh Hlen Hopaque.
  destruct (createMask_bytes data w h t Hw Hh Hlen) as (mask & Hrun & Hl & _).
  rewrite Hrun, getMaskScanWidth_eq by done. f_equal.
  apply list_eq. intros i.
  destruct (mask !! i) as [m|] eqn:Hm.
  - apply lookup_lt_Some in Hm as Hi.
    rewrite lookup_replicate_2 by lia. f_equal.
    destruct (createMask_lookup data w h t mask i m Hw Hh Hlen Hrun Hm)
      as (Hsw & Hy & Hok).
    apply byte_zero_bits. intros b Hb. rewrite (Hok b Hb).
    unfold mask_bit_spec.
    set (y := Z.of_nat i / ((w + 31) / 32 * 4)) in *.
    set (j := Z.of_nat i mod ((w + 31) / 32 * 4)) in *.
    destruct (Z.ltb_spec b 8); [|done].
    destruct (Z.ltb_spec (8 * j + (7 - b)) w); [|done]. simpl.
    assert (Hj : 0 ≤ j) by (unfold j; apply Z.mod_pos_bound; lia).
    unfold alpha.
    replace ((y * w + (8 * j + (7 - b))) * 4 + 3)
      with (4 * (y * w + (8 * j + (7 - b))) + 3) by lia.
    destruct (data !! _) as [a|] eqn:Ha.
    + apply Hopaque in Ha; [|nia]. apply Z.ltb_ge. lia.
    + apply lookup_ge_None in Ha. nia.
  - apply lookup_ge_None in Hm. symmetry. apply lookup_ge_None.
    rewrite length_replicate. lia.
Qed.

Lemma createMask_opaque_witness :
  createMask (map byte_of_Z [1; 2; 3; 9; 5; 6; 7; 200]) 2 1 9
  = Ok (replicate (Z.to_nat (getMaskScanWidth 2 * 1)) x00).
Proof.
  apply createMask_opaque; [lia|lia|simpl; lia|].
  intros p a Hp Ha.
  assert (Hc : p = 0 ∨ p = 1) by lia.
  destruct Hc as [-> | ->]; simpl in Ha; injection Ha as <-; by vm_compute.
Defined.

(** X8. The mask depends on the alpha bytes only: two buffers that agree
    on the fourth byte of every pixel give the same mask. *)
Theorem createMask_alpha_only (data data' : buffer) w h t :
  0 ≤ w < 1073741824 → 0 ≤ h →
  w * h * 4 ≤ Z.of_nat (length data) →
  w * h * 4 ≤ Z.of_nat (length data') →
  (∀ p, 0 ≤ p < w * h →
     data !! Z.to_nat (4 * p + 3) = data' !! Z.to_nat (4 * p + 3)) →
  createMask data w h t = createMask data' w h t.
Proof.
  intros Hw Hh Hlen Hlen' Hsame.
  destruct (createMask_bytes data w h t Hw Hh Hlen) as (mask & Hrun & Hl & _).
  destruct (createMask_bytes data' w h t Hw Hh Hlen') as (mask' & Hrun' & Hl' & _).
  rewrite Hrun, Hrun'. f_equal. apply list_eq. intros i.
  destruct (mask !! i) as [m|] eqn:Hm.
  - destruct (lookup_lt_is_Some_2 mask' i) as [m' Hm'];
      [apply lookup_lt_Some in Hm; lia|].
    rewrite Hm'. f_equal.
    destruct (createMask_lookup data w h t mask i m Hw Hh Hlen Hrun Hm)
      as (Hsw & Hy & Hok).
    destruct (createMask_lookup data' w h t mask' i m' Hw Hh Hlen' Hrun' Hm')
      as (_ & _ & Hok').
    apply byte_eq_bits. intros b Hb. rewrite (Hok b Hb), (Hok' b Hb).
    unfold mask_bit_spec.
    set (y := Z.of_nat i / ((w + 31) / 32 * 4)) in *.
    set (j := Z.of_nat i mod ((w + 31) / 32 * 4)) in *.
    destruct (Z.ltb_spec b 8); [|done].
    destruct (Z.ltb_spec (8 * j + (7 - b)) w); [|done]. simpl.
    assert (Hj : 0 ≤ j) by (unfold j; apply Z.mod_pos_bound; lia).
    unfold alpha.
    replace ((y * w + (8 * j + (7 - b))) * 4 + 3)
      with (4 * (y * w + (8 * j + (7 - b))) + 3) by lia.
    by rewrite Hsame by nia.
  - apply lookup_ge_None in Hm. symmetry. apply lookup_ge_None. lia.
Qed.

Lemma createMask_alpha_only_witness :
  createMask (map byte_of_Z [1; 2; 3; 0; 5; 6; 7; 200]) 2 1 1
  = createMask (map byte_of_Z [9; 9; 9; 0; 0; 0; 0; 200]) 2 1 1.
Proof.
  apply createMask_alpha_only; [lia|lia|simpl; lia|simpl; lia|].
  intros p Hp. assert (Hc : p = 0 ∨ p = 1) by lia.
  by destruct Hc as [-> | ->].
Defined.

(** ** The pixel array *)

(** A column of two pixels, flipped and exchanged. *)
Lemma createDib_rgba_rows_witness :
  1 ≤ 1 ∧ 1 ≤ 2
  ∧ Z.of_nat (length (map byte_of_Z [1; 2; 3; 4; 5; 6; 7; 8])) = 1 * 2 * 4
  ∧ ∃ dib,
      createDib (map byte_of_Z [1; 2; 3; 4; 5; 6; 7; 8]) 1 2 4 = Ok dib
      ∧ dib !! 0%nat = Some (byte_of_Z 7) ∧ dib !! 3%nat = Some (byte_of_Z 8).
Proof.
  split; [lia|]. split; [lia|]. split; [reflexivity|].
  destruct (createDib_rgba_rows (map byte_of_Z [1; 2; 3; 4; 5; 6; 7; 8]) 1 2)
    as (dib & Hrun & _ & Hrows); [lia|lia|reflexivity|].
  exists dib. split; [exact Hrun|].
  destruct (Hrows 1 0 ltac:(lia) ltac:(lia)) as (H0 & _ & _ & H3).
  split; [exact H0|exact H3].
Defined.

(** X10. A source longer than its [h] rows is not copied past them: the
    result has the length of the source and is zero from byte
    [h * w * 4] on. *)
Theorem createDib_surplus_zero (data : buffer) w h :
  1 ≤ w → 0 ≤ h → h * (w * 4) ≤ Z.of_nat (length data) →
  ∃ dib,
    createDib data w h 4 = Ok dib ∧ length dib = length data
    ∧ ∀ i, h * (w * 4) ≤ Z.of_nat i → (i < length data)%nat →
        dib !! i = Some x00.
Proof.
  intros Hw Hh Hlen.
  destruct (createDib_rgba data w h) as (dib & Hrun & Hl & _ & Hrest);
    [lia|lia|lia|].
  exists dib. split; [done|]. split; [done|].
  intros i Hi Hlt. specialize (Hrest (Z.of_nat i) Hi).
  rewrite Nat2Z.id in Hrest. rewrite Hrest. by apply lookup_replicate_2.
Qed.

Lemma createDib_surplus_zero_witness :
  1 ≤ 1 ∧ 0 ≤ 1
  ∧ 1 * (1 * 4) ≤ Z.of_nat (length (map byte_of_Z [1; 2; 3; 4; 5; 6]))
  ∧ ∃ dib,
      createDib (map byte_of_Z [1; 2; 3; 4; 5; 6]) 1 1 4 = Ok dib
      ∧ dib !! 4%nat = Some x00 ∧ dib !! 5%nat = Some x00.
Proof.
  split; [lia|]. split; [lia|]. split; [simpl; lia|].
  destruct (createDib_surplus_zero (map byte_of_Z [1; 2; 3; 4; 5; 6]) 1 1)
    as (dib & Hrun & _ & Hz); [lia|lia|simpl; lia|].
  exists dib. split; [exact Hrun|].
  split; apply Hz; simpl; lia.
Defined.

(** X11. With no row to copy (a width, a height or a [bpp] of 0) the
    result is not the source but as many zero bytes. *)
Theorem createDib_zero_rows (data : buffer) w h bpp :
  w = 0 ∨ h = 0 ∨ bpp = 0 →
  createDib data w h bpp = Ok (replicate (length data) x00).
Proof. intros H. apply createDib_no_rows. nia. Qed.

Lemma createDib_zero_rows_witness :
  createDib (map byte_of_Z [1; 2; 3; 4]) 0 1 4 = Ok (replicate 4 x00).
Proof. apply (createDib_zero_rows (map byte_of_Z [1; 2; 3; 4]) 0 1 4). by left. Defined.

(** X12. The mask of a transposed image follows the rows as they are
    stored, bottom row first: the bit of pixel [x] of row [y] of the mask
    is set exactly when the alpha byte of pixel [x] of row [h - 1 - y] of
    the source is below the threshold. *)
Theorem mask_follows_source (data : buffer) w h t :
  1 ≤ w < 1073741824 → 1 ≤ h →
  Z.of_nat (length data) = w * h * 4 →
  ∃ dib mask,
    createDib data w h 4 = Ok dib ∧ createMask dib w h t = Ok mask
    ∧ ∀ x y, 0 ≤ x < w → 0 ≤ y < h →
        ∃ m a,
          mask !! Z.to_nat (y * getMaskScanWidth w + x / 8) = Some m
          ∧ data !! Z.to_nat (((h - 1 - y) * w + x) * 4 + 3) = Some a
          ∧ Z.testbit (Z_of_byte m) (7 - x mod 8) = (Z_of_byte a <? t).
Proof.
  intros Hw Hh Hlen.
  destruct (createDib_rgba data w h) as (dib & Hdib & Hl & Hrows & _);
    [lia|lia|lia|].
  destruct (createMask_bytes dib w h t) as (mask & Hmask & _ & Hbytes);
    [lia|lia|lia|].
  exists dib, mask. split; [done|]. split; [done|].
  rewrite getMaskScanWidth_eq by lia.
  intros x y Hx Hy.
  assert (Hsw : (w + 7) / 8 ≤ (w + 31) / 32 * 4) by zlia.
  destruct (Hbytes y (x / 8)) as (m & Hm & Hok); [done|zlia|].
  destruct (lookup_lt_is_Some_2 data (Z.to_nat (((h - 1 - y) * w + x) * 4 + 3)))
    as [a Ha]; [nia|].
  exists m, a. split; [done|]. split; [done|].
  rewrite (Hok (7 - x mod 8)) by zlia. unfold mask_bit_spec.
  replace (8 * (x / 8) + (7 - (7 - x mod 8))) with x by zlia.
  destruct (Z.ltb_spec (7 - x mod 8) 8); [|zlia].
  destruct (Z.ltb_spec x w); [|lia]. simpl.
  assert (Hsrc : dib !! Z.to_nat ((y * w + x) * 4 + 3) = Some a).
  { replace ((y * w + x) * 4 + 3) with (y * (w * 4) + (4 * x + 3)) by lia.
    rewrite Hrows by lia. rewrite (swap_rb_pixel x 3) by lia. simpl.
    rewrite <- Ha. f_equal. lia. }
  by rewrite (alpha_lookup dib w x y _ a eq_refl Hsrc).
Qed.

Lemma mask_follows_source_witness :
  1 ≤ 1 < 1073741824 ∧ 1 ≤ 2
  ∧ Z.of_nat (length (map byte_of_Z [1; 2; 3; 0; 5; 6; 7; 255])) = 1 * 2 * 4
  ∧ ∃ dib mask,
      createDib (map byte_of_Z [1; 2; 3; 0; 5; 6; 7; 255]) 1 2 4 = Ok dib
      ∧ createMask dib 1 2 1 = Ok mask.
Proof.
  split; [lia|]. split; [lia|]. split; [reflexivity|].
  destruct (mask_follows_source (map byte_of_Z [1; 2; 3; 0; 5; 6; 7; 255]) 1 2 1)
    as (dib & mask & Hd & Hm & _); [lia|lia|reflexivity|].
  exists dib, mask. split; [exact Hd|exact Hm].
Defined.

(** ** The assembly: decoding, blocks, end of file *)

Lemma Promise_all_map_Ok {A B} (f : A → outcome B) (xs : list A) l :
  Forall2 (λ x a, f x = Ok a) xs l → Promise_all (map f xs) = Ok l.
Proof.
  induction 1 as [|x a xs l Hx _ IH]; [done|].
  cbn [map Promise_all]. by rewrite Hx, IH.
Qed.

(** X13. [generateIco] returns a file exactly when every source decodes
    and the decoded images, taken in the order of the sources, are
    accepted by the assembly; the file is then that of those images. *)
Theorem generateIco_decodes_all {source : Type} (parsePng : source → outcome image)
    (data : list source) out :
  generateIco source parsePng data = Ok out
  ↔ ∃ decoded,
      Forall2 (λ x d, parsePng x = Ok d) data decoded
      ∧ generateIco_decoded decoded = Ok out.
Proof.
  unfold generateIco. split.
  - intros H. apply bind_Ok in H as (decoded & Hp & H).
    apply Promise_all_map_Ok_inv in Hp. eauto.
  - intros (decoded & Hp & H). by rewrite (Promise_all_map_Ok _ _ _ Hp).
Qed.

Lemma generateIco_decodes_all_witness :
  ∃ out,
    generateIco Z square_png [1; 2] = Ok out
    ∧ ∃ decoded,
        Forall2 (λ x d, square_png x = Ok d) [1; 2] decoded
        ∧ generateIco_decoded decoded = Ok out.
Proof.
  eexists. split; [vm_compute; reflexivity|].
  apply (proj1 (generateIco_decodes_all square_png [1; 2] _)).
  vm_compute. reflexivity.
Defined.

(** X14. One source that fails to decode is enough for no file to be
    returned, whatever the other sources are. *)
Theorem generateIco_decode_failure {source : Type}
    (parsePng : source → outcome image) (data : list source) x e :
  x ∈ data → parsePng x = Throw e →
  ∀ out, generateIco source parsePng data ≠ Ok out.
Proof.
  intros Hx He out H. unfold generateIco in H.
  apply bind_Ok in H as (decoded & Hp & _).
  apply Promise_all_map_Ok_inv in Hp.
  apply list_elem_of_lookup in Hx as [i Hi].
  destruct (Forall2_lookup_l _ _ _ _ _ Hp Hi) as (d & _ & Hd). congruence.
Qed.

Lemma generateIco_decode_failure_witness :
  (0 : Z) ∈ [1; 0; 2]
  ∧ (λ n : Z, if n =? 0 then Throw (ERR_EXTERNAL 1) else square_png n) 0
    = Throw (ERR_EXTERNAL 1)
  ∧ ∀ out,
      generateIco Z
        (λ n : Z, if n =? 0 then Throw (ERR_EXTERNAL 1) else square_png n)
        [1; 0; 2] ≠ Ok out.
Proof.
  split; [right; left|]. split; [reflexivity|].
  apply (generateIco_decode_failure
           (λ n : Z, if n =? 0 then Throw (ERR_EXTERNAL 1) else square_png n)
           [1; 0; 2] 0 (ERR_EXTERNAL 1)); [right; left|reflexivity].
Defined.

Lemma is_block_functional x b b' : is_block x b → is_block x b' → b = b'.
Proof.
  destruct b as [[h d] m], b' as [[h' d'] m'].
  intros (Hh & Hd & Hm) (Hh' & Hd' & Hm'); simpl in *.
  assert (h = h') as -> by congruence. assert (d = d') as -> by congruence.
  assert (m = m') as -> by congruence. done.
Qed.

Lemma blocks_functional decoded (bs bs' : list (buffer * buffer * buffer)) :
  Forall2 is_block decoded bs → Forall2 is_block decoded bs' → bs = bs'.
Proof.
  intros H. revert bs'. induction H as [|x b l bs Hb _ IH]; intros bs' H'.
  - by inversion H'.
  - inversion H' as [|x' b' l' bs'' Hb' Hrest]; subst.
    f_equal; [by eapply is_block_functional|by apply IH].
Qed.

(** The part of a file after its directory is the blocks. *)
Lemma generateIco_block_region (decoded : list image) out :
  generateIco_decoded decoded = Ok out →
  ∃ blocks,
    Forall2 is_block decoded blocks
    ∧ drop (6 + 16 * length decoded) out = concat (map block_bytes blocks).
Proof.
  intros H.
  apply generateIco_decoded_inv in H as (header & dirs & blocks & Hh & Hd & Hb & ->).
  apply createHeader_Ok_inv in Hh as [_ Hhl].
  assert (Hl6 : length header = 6%nat) by (by subst header).
  destruct (directory_run_entries _ _ _ Hd) as (_ & _ & Hd3).
  exists blocks. split; [done|].
  replace (6 + 16 * length decoded)%nat
    with (length header + (length (concat dirs) + 0))%nat by lia.
  by rewrite !drop_app_add, drop_0.
Qed.

(** X15. The blocks of a file do not depend on what else is in it: the
    block region of the file of [l1 ++ l2] is the block region of the
    file of [l1] followed by that of the file of [l2]. *)
Theorem generateIco_blocks_append (l1 l2 : list image) out1 out2 out :
  generateIco_decoded l1 = Ok out1 →
  generateIco_decoded l2 = Ok out2 →
  generateIco_decoded (l1 ++ l2) = Ok out →
  drop (6 + 16 * length (l1 ++ l2)) out
  = drop (6 + 16 * length l1) out1 ++ drop (6 + 16 * length l2) out2.
Proof.
  intros H1 H2 H.
  apply generateIco_block_region in H1 as (b1 & Hb1 & ->).
  apply generateIco_block_region in H2 as (b2 & Hb2 & ->).
  apply generateIco_block_region in H as (b & Hb & ->).
  assert (b = b1 ++ b2) as ->
    by (apply (blocks_functional (l1 ++ l2)); [done|by apply Forall2_app]).
  by rewrite map_app, concat_app.
Qed.

Lemma generateIco_blocks_append_witness :
  ∃ out1 out2 out,
    generateIco_decoded [Image 1 1 4 (map byte_of_Z [1; 2; 3; 0])] = Ok out1
    ∧ generateIco_decoded [Image 1 1 4 (map byte_of_Z [5; 6; 7; 255])] = Ok out2
    ∧ generateIco_decoded
        ([Image 1 1 4 (map byte_of_Z [1; 2; 3; 0])]
         ++ [Image 1 1 4 (map byte_of_Z [5; 6; 7; 255])]) = Ok out
    ∧ drop (6 + 16 * 2) out = drop (6 + 16 * 1) out1 ++ drop (6 + 16 * 1) out2.
Proof.
  eexists. eexists. eexists.
  split; [vm_compute; reflexivity|]. split; [vm_compute; reflexivity|].
  split; [vm_compute; reflexivity|].
  apply (generateIco_blocks_append
           [Image 1 1 4 (map byte_of_Z [1; 2; 3; 0])]
           [Image 1 1 4 (map byte_of_Z [5; 6; 7; 255])]);
    vm_compute; reflexivity.
Defined.

Lemma directory_run_sizes offset decoded dirs :
  directory_run offset decoded dirs →
  Forall (λ x, 0 ≤ directory_size x) decoded.
Proof.
  induction 1 as [|offset x rest buf size dirs Hdir _ IH]; constructor; [|done].
  apply createDirectory_Ok_inv in Hdir as (_ & _ & _ & Hs & _). lia.
Qed.

Lemma sumZ_sizes_nonneg (l : list image) :
  Forall (λ x, 0 ≤ directory_size x) l → 0 ≤ sumZ (map directory_size l).
Proof.
  induction 1 as [|x l Hx _ IH]; [done|]. unfold sumZ in *. simpl. lia.
Qed.

(** X16. Every entry of a file points inside it: its block starts after
    the directory and ends within the file, and the block of the last
    entry ends exactly where the file ends. *)
Theorem generateIco_file_end (decoded : list image) out i x :
  generateIco_decoded decoded = Ok out →
  decoded !! i = Some x →
  6 + 16 * Z.of_nat (length decoded) ≤ fileOffset (entry out i)
  ∧ fileOffset (entry out i) + sizeInBytes (entry out i)
    ≤ Z.of_nat (length out)
  ∧ (S i = length decoded →
     fileOffset (entry out i) + sizeInBytes (entry out i)
     = Z.of_nat (length out)).
Proof.
  intros H Hi.
  destruct (generateIco_entry decoded out H i x Hi) as (_ & Hs & Ho & _).
  rewrite Hs, Ho.
  apply generateIco_decoded_inv in H as (header & dirs & blocks & Hh & Hd & Hb & ->).
  apply createHeader_Ok_inv in Hh as [_ Hhl].
  assert (Hl6 : length header = 6%nat) by (by subst header).
  destruct (directory_run_entries _ _ _ Hd) as (_ & _ & Hd3).
  pose proof (directory_run_sizes _ _ _ Hd) as Hnn.
  pose proof (blocks_before _ _ Hb (length decoded)) as Hall.
  rewrite (take_ge decoded) in Hall by lia.
  rewrite (take_ge blocks) in Hall by (apply Forall2_length in Hb; lia).
  rewrite !length_app, Hl6.
  assert (Hsplit : sumZ (map directory_size decoded)
                   = sumZ (map directory_size (take i decoded))
                     + directory_size x
                     + sumZ (map directory_size (drop (S i) decoded))).
  { rewrite <- (take_drop (S i) decoded) at 1.
    rewrite (take_S_r decoded i x Hi), !map_app, !sumZ_app.
    change (sumZ (map directory_size [x])) with (directory_size x + 0). lia. }
  pose proof (sumZ_sizes_nonneg (take i decoded)
                (Forall_take _ _ _ Hnn)) as Hbefore.
  pose proof (sumZ_sizes_nonneg (drop (S i) decoded)
                (Forall_drop _ _ _ Hnn)) as Hafter.
  split; [lia|]. split; [lia|].
  intros Hlast. rewrite drop_ge in Hsplit by lia.
  change (sumZ (map directory_size [])) with 0 in Hsplit. lia.
Qed.

Lemma generateIco_file_end_witness :
  ∃ out,
    generateIco_decoded
      [Image 1 1 4 (map byte_of_Z [9; 8; 7; 0]);
       Image 1 1 4 (map byte_of_Z [1; 2; 3; 255])] = Ok out
    ∧ fileOffset (entry out 1) + sizeInBytes (entry out 1)
      = Z.of_nat (length out).
Proof.
  eexists. split; [vm_compute; reflexivity|].
  match goal with
  | |- fileOffset (entry ?o _) + _ = _ =>
      destruct (generateIco_file_end
                  [Image 1 1 4 (map byte_of_Z [9; 8; 7; 0]);
                   Image 1 1 4 (map byte_of_Z [1; 2; 3; 255])] o 1%nat
                  (Image 1 1 4 (map byte_of_Z [1; 2; 3; 255]))
                  eq_refl eq_refl) as (_ & _ & Hlast)
  end.
  exact (Hlast eq_refl).
Defined.

(** ** The exported function: defaults, empty input, failures *)

Section Exported.
Context {source : Type}.
Variable parsePng : source → outcome image.
Variable imageSize : source → outcome (Z * Z).
Variable resizeImg : source → Z → Z → outcome source.

(** X17. Resizing is off unless asked for: with no options, or options
    without [resize], the result is that of encoding the sources as they
    are; no source is measured or resized and [sizes] is not read. *)
Theorem toIco_resize_default_off (i : input source) opts :
  (∀ o, opts = Some o → o !! "resize" = None) →
  toIco source parsePng imageSize resizeImg i opts
  = generateIco source parsePng (arrify i).
Proof.
  intros Hopts. unfold toIco. cbv zeta.
  assert (Hoff : truthy (assign_opts opts !! "resize") = false).
  { destruct opts as [o|]; simpl; [|done].
    by rewrite lookup_union_r by auto. }
  by rewrite Hoff.
Qed.

Lemma filter_none (sizes : list Z) : List.filter (λ _, false) sizes = [].
Proof. by induction sizes. Qed.

(** X18. With no source the result is the header alone, announcing no
    image: when resizing is off, and also when it is on and [sizes] is an
    array, whatever the sizes are. *)
Theorem toIco_no_source (i : input source) opts :
  arrify i = [] →
  truthy (assign_opts opts !! "resize") = false
  ∨ (∃ sizes, assign_opts opts !! "sizes" = Some (JArr sizes)) →
  toIco source parsePng imageSize resizeImg i opts
  = Ok [x00; x00; x01; x00; x00; x00].
Proof.
  intros Hi Hopts. unfold toIco. cbv zeta. rewrite Hi.
  destruct (truthy (assign_opts opts !! "resize")) eqn:Hr; [|done].
  destruct Hopts as [|[sizes Hs]]; [done|].
  unfold resizeImages. cbn [mapM mbind outcome_bind mret outcome_ret foldl].
  cbv zeta. rewrite Hs, filter_none. done.
Qed.

(** X19. When resizing is on every source is measured, not only the one
    that is resized: one source that cannot be measured is enough for no
    file to be returned. *)
Theorem toIco_resize_measure_failure (i : input source) opts y e :
  truthy (assign_opts opts !! "resize") = true →
  y ∈ arrify i → imageSize y = Throw e →
  ∀ out, toIco source parsePng imageSize resizeImg i opts ≠ Ok out.
Proof.
  intros Hr Hy He out H. unfold toIco in H. cbv zeta in H. rewrite Hr in H.
  apply bind_Ok in H as (resized & H & _). unfold resizeImages in H.
  apply bind_Ok in H as (measured & Hm & _).
  apply mapM_Ok_inv in Hm.
  apply list_elem_of_lookup in Hy as [j Hj].
  destruct (Forall2_lookup_l _ _ _ _ _ Hm Hj) as (m & _ & Hbody).
  by rewrite He in Hbody.
Qed.

End Exported.

Lemma toIco_resize_default_off_witness :
  (∀ o : gmap string jsval,
     Some ({[ "sizes" := JArr [1] ]} : gmap string jsval) = Some o →
     o !! "resize" = None)
  ∧ toIco Z square_png (λ _, Throw (ERR_EXTERNAL 1))
      (λ _ _ _, Throw (ERR_EXTERNAL 2)) (InputOne 1)
      (Some {[ "sizes" := JArr [1] ]})
    = generateIco Z square_png [1].
Proof.
  assert (H : ∀ o : gmap string jsval,
            Some ({[ "sizes" := JArr [1] ]} : gmap string jsval) = Some o →
            o !! "resize" = None).
  { intros o Ho. injection Ho as <-. reflexivity. }
  split; [exact H|].
  exact (toIco_resize_default_off square_png (λ _, Throw (ERR_EXTERNAL 1))
           (λ _ _ _, Throw (ERR_EXTERNAL 2)) (InputOne 1) _ H).
Defined.

Lemma toIco_no_source_witness :
  arrify (InputArray ([] : list Z)) = []
  ∧ toIco Z square_png square_size square_resize (InputArray [])
      (Some {[ "resize" := JBool true ]})
    = Ok [x00; x00; x01; x00; x00; x00].
Proof.
  split; [reflexivity|].
  apply (toIco_no_source square_png square_size square_resize (InputArray [])
           (Some {[ "resize" := JBool true ]})); [reflexivity|].
  right. eexists. reflexivity.
Defined.


Lemma toIco_resize_measure_failure_witness :
  truthy (assign_opts (Some {[ "resize" := JBool true ]}) !! "resize") = true
  ∧ (1 : Z) ∈ arrify (InputArray [64; 1])
  ∧ ∀ out,
      toIco Z square_png
        (λ n : Z, if n =? 1 then Throw (ERR_EXTERNAL 1) else square_size n)
        square_resize (InputArray [64; 1])
        (Some {[ "resize" := JBool true ]}) ≠ Ok out.
Proof.
  assert (Hr : truthy (assign_opts (Some {[ "resize" := JBool true ]})
                       !! "resize") = true) by reflexivity.
  split; [exact Hr|]. split; [right; left|].
  apply (toIco_resize_measure_failure square_png
           (λ n : Z, if n =? 1 then Throw (ERR_EXTERNAL 1) else square_size n)
           square_resize (InputArray [64; 1]) _ 1 (ERR_EXTERNAL 1) Hr);
    [right; left|reflexivity].
Defined.

(** The reduction keeps the last of the widest: nothing is wider, and
    what comes after it is narrower. *)
Lemma wider_last {source} (l : list (sized source)) :
  ∀ d, foldl wider None l = Some d →
  ∃ i, l !! i = Some d
       ∧ (∀ j y, l !! j = Some y → sized_width y ≤ sized_width d)
       ∧ (∀ j y, (i < j)%nat → l !! j = Some y →
            sized_width y < sized_width d).
Proof.
  induction l as [|b l IH] using rev_ind; intros d H; [done|].
  rewrite foldl_snoc in H.
  destruct (foldl wider None l) as [a|] eqn:Hfold.
  - destruct (IH a eq_refl) as (i & Hi & Hmax & Hafter).
    apply lookup_lt_Some in Hi as Hlt.
    cbn [wider] in H.
    destruct (Z.gtb_spec (sized_width a) (sized_width b)) as [Hgt|Hle];
      injection H as <-.
    + exists i. split; [by rewrite lookup_app_l|]. split.
      * intros j y Hj. apply lookup_app_Some in Hj as [Hj|[_ Hj]]; [by eapply Hmax|].
        apply list_lookup_singleton_Some in Hj as [_ <-]. lia.
      * intros j y Hij Hj. apply lookup_app_Some in Hj as [Hj|[_ Hj]];
          [by eapply Hafter|].
        apply list_lookup_singleton_Some in Hj as [_ <-]. lia.
    + exists (length l). split; [by rewrite lookup_app_r, Nat.sub_diag|]. split.
      * intros j y Hj. apply lookup_app_Some in Hj as [Hj|[_ Hj]].
        -- specialize (Hmax j y Hj). lia.
        -- apply list_lookup_singleton_Some in Hj as [_ <-]. lia.
      * intros j y Hij Hj. apply lookup_lt_Some in Hj.
        rewrite length_app in Hj. simpl in Hj. lia.
  - assert (l = []) as ->.
    { destruct l as [|a l]; [done|].
      destruct (wider_fold_None (a :: l)) as (d' & Hd' & _); [done|]. congruence. }
    injection H as <-. exists 0%nat. split; [done|]. split.
    + intros j y Hj. apply list_lookup_singleton_Some in Hj as [_ <-]. lia.
    + intros j y Hij Hj. apply lookup_lt_Some in Hj. simpl in Hj. lia.
Qed.

(** X20. Among sources of the same greatest width the last one is the
    one resized: every source after the resized one is strictly narrower,
    and none is wider. *)
Theorem resizeImages_last_widest {source : Type}
    (imageSize : source → outcome (Z * Z))
    (resizeImg : source → Z → Z → outcome source)
    (data : list source) opts resized :
  data ≠ [] →
  resizeImages source imageSize resizeImg data opts = Ok resized →
  ∃ i src w h sizes,
    data !! i = Some src ∧ imageSize src = Ok (w, h)
    ∧ (∀ j y wy hy, data !! j = Some y → imageSize y = Ok (wy, hy) → wy ≤ w)
    ∧ (∀ j y wy hy, (i < j)%nat → data !! j = Some y →
         imageSize y = Ok (wy, hy) → wy < w)
    ∧ opts !! "sizes" = Some (JArr sizes)
    ∧ Forall2 (λ x r, resizeImg src x x = Ok r)
        (List.filter (λ x, x <=? w) sizes) resized.
Proof.
  intros Hne H. unfold resizeImages in H.
  apply bind_Ok in H as (measured & Hm & H). cbv zeta in H.
  apply mapM_Ok_inv in Hm.
  assert (Hmne : measured ≠ []).
  { intros ->. apply Forall2_length in Hm. by destruct data. }
  destruct (wider_fold_None measured Hmne) as (d & Hd & _).
  destruct (wider_last measured d Hd) as (i & Hi & Hmax & Hafter).
  rewrite Hd in H.
  destruct (opts !! "sizes") as [[| | |sizes]|] eqn:Hsizes; try discriminate.
  apply Promise_all_map_Ok_inv in H.
  destruct (Forall2_lookup_r _ _ _ _ _ Hm Hi) as (src & Hsrc & Himg).
  apply bind_Ok in Himg as ([w h] & Hsize & Himg). injection Himg as <-.
  simpl in *.
  assert (Hmeasured : ∀ j y wy hy, data !! j = Some y →
            imageSize y = Ok (wy, hy) → measured !! j = Some (Sized y wy hy)).
  { intros j y wy hy Hj Hy.
    destruct (Forall2_lookup_l _ _ _ _ _ Hm Hj) as (m & Hmj & Hbody).
    rewrite Hy in Hbody. by injection Hbody as <-. }
  exists i, src, w, h, sizes. split; [done|]. split; [done|].
  split; [|split; [|done]].
  - intros j y wy hy Hj Hy.
    apply (Hmax j (Sized y wy hy)). by apply Hmeasured.
  - intros j y wy hy Hij Hj Hy.
    apply (Hafter j (Sized y wy hy) Hij). by apply Hmeasured.
Qed.

(** Two sources of width 2, told apart by their height: the second one
    is resized. *)
Lemma resizeImages_last_widest_witness :
  ([(2, 5); (1, 6); (2, 7)] : list (Z * Z)) ≠ []
  ∧ ∃ resized,
      resizeImages (Z * Z) (λ s, Ok s) (λ s w _, Ok (w, s.2))
        [(2, 5); (1, 6); (2, 7)]
        {[ "sizes" := JArr [1; 2; 3] ]} = Ok resized
      ∧ ∃ i src, [(2, 5); (1, 6); (2, 7)] !! i = Some src
                 ∧ Forall2 (λ x r, Ok (x, src.2) = Ok r) [1; 2] resized
                 ∧ resized = [(1, 7); (2, 7)].
Proof.
  split; [done|].
  eexists. split; [vm_compute; reflexivity|].
  destruct (resizeImages_last_widest (λ s : Z * Z, Ok s)
              (λ (s : Z * Z) (w _ : Z), Ok (w, s.2))
              [(2, 5); (1, 6); (2, 7)]
              {[ "sizes" := JArr [1; 2; 3] ]} [(1, 7); (2, 7)])
    as (i & src & w & h & sizes & Hi & Hsize & _ & _ & _ & _);
    [done|vm_compute; reflexivity|].
  exists 2%nat, (2, 7). split; [reflexivity|]. split; [|reflexivity].
  repeat constructor.
Defined.

(** X21. The exported function reads no option but [resize] and
    [sizes]: adding or changing any other property of the options leaves
    the result as it was. *)
Theorem toIco_unknown_option {source : Type} parsePng imageSize resizeImg
    (i : input source) (opts : gmap string jsval) key v :
  key ≠ "resize" → key ≠ "sizes" →
  toIco source parsePng imageSize resizeImg i (Some (<[key := v]> opts))
  = toIco source parsePng imageSize resizeImg i (Some opts).
Proof. apply toIco_ignores_option. Qed.

Lemma toIco_unknown_option_witness :
  "quality" ≠ "resize" ∧ "quality" ≠ "sizes"
  ∧ toIco Z square_png square_size square_resize (InputOne 1)
      (Some (<["quality" := JNum 9]> {[ "resize" := JBool true ]}))
    = toIco Z square_png square_size square_resize (InputOne 1)
        (Some {[ "resize" := JBool true ]}).
Proof.
  split; [done|]. split; [done|].
  by apply (toIco_unknown_option square_png square_size square_resize).
Defined.

(** ** More on the pixel array and on the file *)

(** X22. On four-byte pixels (width and height at least 1) [createDib]
    fails, with the range error, exactly when the source is shorter than
    its [h * w * 4] bytes. *)
Theorem createDib_fails_iff_short (data : buffer) w h :
  1 ≤ w → 1 ≤ h →
  createDib data w h 4 = Throw ERR_OUT_OF_RANGE
  ↔ Z.of_nat (length data) < h * w * 4.
Proof.
  intros Hw Hh. split.
  - intros Hthrow.
    destruct (Z.lt_ge_cases (Z.of_nat (length data)) (h * w * 4)) as [|Hge];
      [done|].
    destruct (createDib_rgba data w h) as (dib & Hrun & _); [lia|lia|lia|].
    congruence.
  - intros Hshort.
    destruct (createDib_settles data w h 4) as [[dib Hrun]|Hthrow];
      [lia|lia|lia| |done].
    apply createDib_Ok_rows in Hrun; lia.
Qed.

Lemma createDib_fails_iff_short_witness :
  1 ≤ 2 ∧ 1 ≤ 1
  ∧ createDib (map byte_of_Z [1; 2; 3; 4; 5; 6; 7]) 2 1 4
    = Throw ERR_OUT_OF_RANGE.
Proof.
  split; [lia|]. split; [lia|].
  apply (createDib_fails_iff_short (map byte_of_Z [1; 2; 3; 4; 5; 6; 7]) 2 1);
    [lia|lia|simpl; lia].
Defined.

(** X23. Every file that is produced starts with reserved 0, type 1 and
    the number of images it holds. *)
Theorem generateIco_header (decoded : list image) out :
  generateIco_decoded decoded = Ok out →
  field out 0 2 = 0 ∧ field out 2 2 = 1
  ∧ field out 4 2 = Z.of_nat (length decoded).
Proof.
  intros H.
  apply generateIco_decoded_inv in H as (header & dirs & blocks & Hh & _ & _ & ->).
  apply createHeader_Ok_inv in Hh as [Hn ->].
  set (rest := concat dirs ++ concat (map block_bytes blocks)).
  change (field ((le_bytes 2 0 ++ le_bytes 2 1
                  ++ le_bytes 2 (Z.of_nat (length decoded))) ++ rest) 0 2)
    with (le_value (le_bytes 2 0)).
  change (field ((le_bytes 2 0 ++ le_bytes 2 1
                  ++ le_bytes 2 (Z.of_nat (length decoded))) ++ rest) 2 2)
    with (le_value (le_bytes 2 1)).
  change (field ((le_bytes 2 0 ++ le_bytes 2 1
                  ++ le_bytes 2 (Z.of_nat (length decoded))) ++ rest) 4 2)
    with (le_value (le_bytes 2 (Z.of_nat (length decoded)))).
  rewrite !le_value_unsigned by (simpl; lia). done.
Qed.

Lemma generateIco_header_witness :
  ∃ out,
    generateIco_decoded
      [Image 1 1 4 (map byte_of_Z [9; 8; 7; 0]);
       Image 1 1 4 (map byte_of_Z [1; 2; 3; 255])] = Ok out
    ∧ field out 4 2 = 2.
Proof.
  eexists. split; [vm_compute; reflexivity|].
  match goal with
  | |- field ?o _ _ = _ =>
      destruct (generateIco_header
                  [Image 1 1 4 (map byte_of_Z [9; 8; 7; 0]);
                   Image 1 1 4 (map byte_of_Z [1; 2; 3; 255])] o eq_refl)
        as (_ & _ & Hn)
  end.
  exact Hn.
Defined.

(** X24. In a file that is produced, the entry of image [i] points at a
    bitmap info header that describes image [i]: header size 40, the
    width, twice the height, one plane, [bpp * 8] bits, no compression
    and the length of the pixel array. *)
Theorem generateIco_block_header (decoded : list image) out i x :
  generateIco_decoded decoded = Ok out →
  decoded !! i = Some x →
  let block := take (Z.to_nat (sizeInBytes (entry out i)))
                 (drop (Z.to_nat (fileOffset (entry out i))) out) in
  field block 0 4 = 40
  ∧ field_i32 block 4 = width x ∧ field_i32 block 8 = 2 * height x
  ∧ field block 12 2 = 1 ∧ field block 14 2 = bpp x * 8
  ∧ field block 16 4 = 0
  ∧ field block 20 4 = Z.of_nat (length (data x)).
Proof.
  intros H Hi block.
  destruct (generateIco_entry decoded out H i x Hi)
    as (_ & Hs & Ho & [[header dib] mask] & (Hhd & _ & _) & Hbytes).
  unfold block. rewrite Hs, Ho, Hbytes. clear block Hbytes.
  simpl in Hhd.
  apply createBitmap_Ok_inv in Hhd as (Rw & Rh & Rb & _ & Rl & ->).
  unfold block_bytes, field_i32. cbn [fst snd].
  set (rest := dib ++ mask).
  change (field (bitmap_layout x constants.colorMode ++ rest) 0 4)
    with (le_value (le_bytes 4 40)).
  change (field (bitmap_layout x constants.colorMode ++ rest) 4 4)
    with (le_value (le_bytes 4 (width x))).
  change (field (bitmap_layout x constants.colorMode ++ rest) 8 4)
    with (le_value (le_bytes 4 (height x * 2))).
  change (field (bitmap_layout x constants.colorMode ++ rest) 12 2)
    with (le_value (le_bytes 2 1)).
  change (field (bitmap_layout x constants.colorMode ++ rest) 14 2)
    with (le_value (le_bytes 2 (bpp x * 8))).
  change (field (bitmap_layout x constants.colorMode ++ rest) 16 4)
    with (le_value (le_bytes 4 0)).
  change (field (bitmap_layout x constants.colorMode ++ rest) 20 4)
    with (le_value (le_bytes 4 (Z.of_nat (length (data x))))).
  rewrite !le_value_signed32 by lia.
  rewrite !le_value_unsigned by (simpl; lia).
  repeat split; lia.
Qed.

Lemma generateIco_block_header_witness :
  ∃ out,
    generateIco_decoded [Image 1 2 4 (replicate 8 xff)] = Ok out
    ∧ field_i32 (take (Z.to_nat (sizeInBytes (entry out 0)))
                   (drop (Z.to_nat (fileOffset (entry out 0))) out)) 8
      = 2 * 2.
Proof.
  eexists. split; [vm_compute; reflexivity|].
  match goal with
  | |- field_i32 (take _ (drop _ ?o)) _ = _ =>
      destruct (generateIco_block_header [Image 1 2 4 (replicate 8 xff)] o
                  0%nat (Image 1 2 4 (replicate 8 xff)) eq_refl eq_refl)
        as (_ & _ & Hh & _)
  end.
  exact Hh.
Defined.

(** X25. A mask is written for four bytes a pixel only: for any other
    [bpp] the block of an image in a produced file is its bitmap info
    header and its pixel array, and its entry records
    [data.length + 40] bytes. *)
Theorem generateIco_no_mask (decoded : list image) out i x :
  generateIco_decoded decoded = Ok out →
  decoded !! i = Some x → bpp x ≠ 4 →
  sizeInBytes (entry out i) = Z.of_nat (length (data x)) + 40
  ∧ ∃ header dib,
      createBitmap x constants.colorMode = Ok header
      ∧ createDib (data x) (width x) (height x) (bpp x) = Ok dib
      ∧ take (Z.to_nat (sizeInBytes (entry out i)))
          (drop (Z.to_nat (fileOffset (entry out i))) out)
        = header ++ dib.
Proof.
  intros H Hi Hb.
  destruct (generateIco_entry decoded out H i x Hi)
    as (_ & Hs & Ho & [[header dib] mask] & (Hhd & Hdib & Hmask) & Hbytes).
  simpl in Hhd, Hdib, Hmask.
  destruct (Z.eqb_spec (bpp x) 4) as [|_]; [done|].
  injection Hmask as <-.
  rewrite Hs, Ho. split.
  - unfold directory_size. destruct (Z.eqb_spec (bpp x) 4); [done|lia].
  - exists header, dib. split; [done|]. split; [done|].
    rewrite Hbytes. unfold block_bytes. simpl. by rewrite app_nil_r.
Qed.

Lemma generateIco_no_mask_witness :
  5 ≠ 4
  ∧ ∃ out,
      generateIco_decoded [Image 1 1 5 (map byte_of_Z [1; 2; 3; 4; 5])] = Ok out
      ∧ sizeInBytes (entry out 0) = 5 + 40.
Proof.
  split; [lia|]. eexists. split; [vm_compute; reflexivity|].
  match goal with
  | |- sizeInBytes (entry ?o _) = _ =>
      destruct (generateIco_no_mask
                  [Image 1 1 5 (map byte_of_Z [1; 2; 3; 4; 5])] o 0%nat
                  (Image 1 1 5 (map byte_of_Z [1; 2; 3; 4; 5]))
                  eq_refl eq_refl ltac:(simpl; lia)) as (Hs & _)
  end.
  exact Hs.
Defined.
